(** * tg_pushkin: the proximity / navigation engine of [main.py]

    A shallow embedding of the store-facing functions of [main.py]
    (geo search, visit ledger, navigation row, progress statistics and the
    location handlers) together with the properties of the specification
    that concern them.

    Modelling conventions.
    - Python [float] and SQLite [REAL] values are idealised as real numbers
      ([R]); rounding is not modelled.  Comparisons on them are the
      decidable comparisons of the reals.
    - Python [int] and SQLite [INTEGER] values are [Z]; a nullable column
      is an [option].
    - The four tables the engine touches are one [db] record.  The
      statements of one function are applied to it in program order; a
      [with connect_db()] block is a transaction that is rolled back when
      its body raises.
    - Every [with connect_db()] block works on a connection of its own.
      A connection that has written holds the write lock of the database
      file until its block ends, and a writing statement of another
      connection then fails ([sqlite3.OperationalError], "database is
      locked", after the busy timeout).  The one place where a block is
      entered while the caller's block has written is
      [update_visit_stats], called by [mark_visit] right after its
      [INSERT]: its first statement fails, and [mark_visit] is rolled back
      and raises.
    - The catalogue holds numbers in [lat] and [lon].  A [NULL] there,
      which only a line of the CSV file with a coordinate that [float]
      reads as [nan] can create, is outside the model, and so are integers
      outside 64 bits, which the database binding refuses.
    - The clock is an explicit argument [now] (seconds, UTC).  SQL
      [CURRENT_TIMESTAMP] / [datetime('now')] and Python [utcnow()] all
      read it; timestamps are compared as numbers, which is the order of
      their ISO text form.
    - What a handler sends to the chat is recorded as a list of [event]s. *)

From Stdlib Require Import ZArith List Sorted Reals Lra Lia String.
From stdpp Require Import gmap.

Local Open Scope Z_scope.

(** ** Configuration constants (main.py, lines 29-32 and 129) *)

Definition RADIUS : R := 20%R.
Definition REVISIT_HOURS : Z := 24.
Definition R_EARTH : R := 6371000%R.

(** ** Decidable comparisons on the idealised floats *)

#[global] Instance Rle_decision (x y : R) : Decision (x <= y)%R := Rle_dec x y.
#[global] Instance Rlt_decision (x y : R) : Decision (x < y)%R := Rlt_dec x y.
#[global] Instance Req_decision : EqDecision R := Req_dec_T.

(** Python truthiness of a nullable number: [None] and zero are false. *)
Definition float_truthy (x : option R) : bool :=
  match x with
  | Some v => bool_decide (v <> 0%R)
  | None => false
  end.

Definition int_truthy (x : option Z) : bool :=
  match x with
  | Some v => negb (v =? 0)
  | None => false
  end.

(** ** GeoMath (main.py, lines 131-136) *)

Section GeoMath.
Local Open Scope R_scope.

(** [math.radians] *)
Definition radians (deg : R) : R := deg * (PI / 180).

Definition haversine (lat1 lon1 lat2 lon2 : R) : R :=
  let dphi := radians (lat2 - lat1) in
  let dlam := radians (lon2 - lon1) in
  let phi1 := radians lat1 in
  let phi2 := radians lat2 in
  let a := sin (dphi / 2) ^ 2 + cos phi1 * cos phi2 * sin (dlam / 2) ^ 2 in
  2 * R_EARTH * asin (sqrt a).
End GeoMath.

(** ** Tables (main.py, lines 46-78) *)

Record poi_row := {
  poi_id : Z;
  name_ru : string;
  poi_lat : R;
  poi_lon : R;
  summary_ru : string
}.

Record visit_row := {
  visit_user : Z;
  visit_poi : Z;
  visited_at : Z
}.

Record tracking_row := {
  last_lat : option R;
  last_lon : option R;
  last_update : option Z;
  target_poi_id : option Z;
  notified_50m : bool;
  notified_arrived : bool
}.

Record stats_row := {
  total_distance : R;
  total_time : Z;
  first_visit : option Z;
  last_visit : option Z;
  current_streak : Z;
  max_streak : Z;
  favorite_poi_id : option Z
}.

(** [poi] is kept in rowid order, [visit_log] in insertion order; the two
    per-user tables are keyed by their primary key [user_id]. *)
Record db := {
  poi : list poi_row;
  visit_log : list visit_row;
  user_tracking : gmap Z tracking_row;
  user_stats : gmap Z stats_row
}.

Definition set_visit_log (f : list visit_row -> list visit_row) (s : db) : db :=
  {| poi := poi s; visit_log := f (visit_log s);
     user_tracking := user_tracking s; user_stats := user_stats s |}.

Definition set_tracking (f : gmap Z tracking_row -> gmap Z tracking_row) (s : db) : db :=
  {| poi := poi s; visit_log := visit_log s;
     user_tracking := f (user_tracking s); user_stats := user_stats s |}.

Definition set_stats (f : gmap Z stats_row -> gmap Z stats_row) (s : db) : db :=
  {| poi := poi s; visit_log := visit_log s;
     user_tracking := user_tracking s; user_stats := f (user_stats s) |}.

(** [date('now')]: the day number of the clock. *)
Definition date_of (now : Z) : Z := now / 86400.

(** ** SQL building blocks *)

(** [ORDER BY]: a stable insertion sort, rows with equal keys keep the
    order in which the scan produced them. [le x y] says that [x] may
    stand before [y]. *)
Section OrderBy.
Context {A : Type} (le : A -> A -> bool).

Fixpoint insert_by (x : A) (l : list A) : list A :=
  match l with
  | [] => [x]
  | y :: l' => if le x y then x :: l else y :: insert_by x l'
  end.

Definition order_by (l : list A) : list A := foldr insert_by [] l.
End OrderBy.

(** [LIMIT n]: a negative [n] means no bound. *)
Definition sql_limit {A : Type} (n : Z) (l : list A) : list A :=
  if n <? 0 then l else firstn (Z.to_nat n) l.

(** [GROUP BY poi_id] with [COUNT( * )]: one row per key, keys ascending. *)
Fixpoint bump (k : Z) (g : list (Z * Z)) : list (Z * Z) :=
  match g with
  | [] => [(k, 1)]
  | (k', c) :: g' =>
      if k <? k' then (k, 1) :: g
      else if k =? k' then (k', c + 1) :: g'
      else (k', c) :: bump k g'
  end.

Definition group_count (keys : list Z) : list (Z * Z) := foldr bump [] keys.

(** ** ProximityFinder (main.py, lines 138-160) *)

(** A result row of the two proximity queries: the [poi] columns and the
    computed column [dist]. *)
Record hit := { hit_poi : poi_row; dist : R }.

(** [111000*sqrt(pow(lat-?,2)+pow((lon-?)*0.6,2))] *)
Definition sql_dist (p : poi_row) (lat lon : R) : R :=
  (111000 * sqrt ((poi_lat p - lat) ^ 2 + ((poi_lon p - lon) * 0.6) ^ 2))%R.

(** [datetime.utcnow() - timedelta(hours=REVISIT_HOURS)] *)
Definition revisit_limit (now : Z) : Z := now - REVISIT_HOURS * 3600.

(** [EXISTS(SELECT 1 FROM visit_log WHERE user_id=? AND poi_id=poi.id AND visited_at>?)] *)
Definition recently_visited (log : list visit_row) (uid limit : Z) (p : poi_row) : bool :=
  existsb (fun v => (visit_user v =? uid) && (visit_poi v =? poi_id p)
                    && (limit <? visited_at v)) log.

Definition with_dist (lat lon : R) (p : poi_row) : hit :=
  {| hit_poi := p; dist := sql_dist p lat lon |}.

Definition dist_le (h1 h2 : hit) : bool := bool_decide (dist h1 <= dist h2)%R.

Definition unvisited (uid : Z) (now : Z) (s : db) : list poi_row :=
  List.filter (fun p => negb (recently_visited (visit_log s) uid (revisit_limit now) p))
              (poi s).

Definition nearest (uid : Z) (lat lon : R) (now : Z) (s : db) : option hit :=
  head (sql_limit 1
          (order_by dist_le
             (List.filter (fun h => bool_decide (dist h <= RADIUS)%R)
                          (map (with_dist lat lon) (unvisited uid now s))))).

Definition find_nearest_unvisited (uid : Z) (lat lon : R) (limit : Z) (now : Z) (s : db)
  : list hit :=
  sql_limit limit (order_by dist_le (map (with_dist lat lon) (unvisited uid now s))).

Definition get_poi_by_id (pid : Z) (s : db) : option poi_row :=
  head (List.filter (fun p => poi_id p =? pid) (poi s)).

(** ** The favourite query of [update_visit_stats] (main.py, lines 176-179)

    [SELECT poi_id, COUNT( * ) as cnt FROM visit_log WHERE user_id=?
     GROUP BY poi_id ORDER BY cnt DESC LIMIT 1]

    SQL leaves the order of groups with equal counts open.  The engine
    walks the groups of this query from the highest [poi_id] down and
    sorts them by count, so that of several most visited entries the one
    with the highest id comes first. *)

Definition cnt_desc (g1 g2 : Z * Z) : bool := snd g2 <=? snd g1.

Definition user_visits (uid : Z) (log : list visit_row) : list Z :=
  map visit_poi (List.filter (fun v => visit_user v =? uid) log).

Definition favourite_query (uid : Z) (log : list visit_row) : option (Z * Z) :=
  head (sql_limit 1 (order_by cnt_desc (rev (group_count (user_visits uid log))))).

(** ** Handlers as state transformers with output and exceptions *)

(** [TypeError] (a [None] where a number or a row is needed),
    [sqlite3.OperationalError] (the database is locked), [OverflowError]
    (an integer outside 64 bits bound to a statement) and the errors of
    the CSV reader. *)
Inductive exn := TypeError | OperationalError | OverflowError | ReaderError.

(** Which caller asked [show_poi_info] for the card: the non-live branch
    of [on_location] (through [show_nearest_poi]) or the arrival branch of
    [handle_live_location].  The label only tags the event. *)
Inductive card_origin := Surfaced | Arrived.

Inductive event :=
| PoiCard (why : card_origin) (uid pid : Z) (distance : R) (next : option Z)
| NoNearbyPoi (uid : Z)
| ChooseTarget (uid : Z) (candidates : list Z)
| NavNear (uid pid : Z) (distance : R)
| NavProgress (uid pid : Z) (distance : R).

Inductive result (A : Type) :=
| Done (a : A) (s : db) (out : list event)
| Raised (e : exn) (s : db) (out : list event).
Arguments Done {A} a s out.
Arguments Raised {A} e s out.

Definition M (A : Type) : Type := db -> result A.

#[global] Instance M_ret : MRet M := fun A a s => Done a s [].

#[global] Instance M_bind : MBind M := fun A B f m s =>
  match m s with
  | Done a s1 out1 =>
      match f a s1 with
      | Done b s2 out2 => Done b s2 (out1 ++ out2)
      | Raised e s2 out2 => Raised e s2 (out1 ++ out2)
      end
  | Raised e s1 out1 => Raised e s1 out1
  end.

Definition gets {A : Type} (f : db -> A) : M A := fun s => Done (f s) s [].
Definition modify (f : db -> db) : M unit := fun s => Done tt (f s) [].
Definition emit (e : event) : M unit := fun s => Done tt s [e].
Definition raise {A : Type} (e : exn) : M A := fun s => Raised e s [].

(** [with connect_db() as c: ...]: commit on exit, roll back when the body
    raises. *)
Definition transaction {A : Type} (m : M A) : M A := fun s =>
  match m s with
  | Done a s1 out => Done a s1 out
  | Raised e _ out => Raised e s out
  end.

Definition final_db {A : Type} (r : result A) : db :=
  match r with Done _ s _ | Raised _ s _ => s end.

Definition output {A : Type} (r : result A) : list event :=
  match r with Done _ _ out | Raised _ _ out => out end.

(** ** VisitLedger and ProgressTracker (main.py, lines 162-181) *)

(** The row [INSERT OR IGNORE INTO user_stats(user_id, first_visit)] creates. *)
Definition new_stats (today : Z) : stats_row :=
  {| total_distance := 0%R; total_time := 0; first_visit := Some today;
     last_visit := None; current_streak := 0; max_streak := 0;
     favorite_poi_id := None |}.

Definition insert_or_ignore_stats (uid today : Z) (s : db) : db :=
  match user_stats s !! uid with
  | Some _ => s
  | None => set_stats <[uid := new_stats today]> s
  end.

Definition with_last_visit (d : Z) (r : stats_row) : stats_row :=
  {| total_distance := total_distance r; total_time := total_time r;
     first_visit := first_visit r; last_visit := Some d;
     current_streak := current_streak r; max_streak := max_streak r;
     favorite_poi_id := favorite_poi_id r |}.

Definition with_favorite (p : Z) (r : stats_row) : stats_row :=
  {| total_distance := total_distance r; total_time := total_time r;
     first_visit := first_visit r; last_visit := last_visit r;
     current_streak := current_streak r; max_streak := max_streak r;
     favorite_poi_id := Some p |}.

Definition with_total_distance (d : R) (r : stats_row) : stats_row :=
  {| total_distance := d; total_time := total_time r;
     first_visit := first_visit r; last_visit := last_visit r;
     current_streak := current_streak r; max_streak := max_streak r;
     favorite_poi_id := favorite_poi_id r |}.

(** [c.execute] of a statement that writes, on a connection opened while
    another connection holds the write lock ([locked]) or not. *)
Definition execute_write (locked : bool) (f : db -> db) : M unit :=
  if locked then raise OperationalError else modify f.

(** [update_visit_stats], entered while the caller's connection holds the
    write lock ([locked]) or not. *)
Definition update_visit_stats (locked : bool) (uid : Z) (now : Z) : M unit :=
  transaction (
    execute_write locked (insert_or_ignore_stats uid (date_of now));;
    execute_write locked (set_stats (alter (with_last_visit (date_of now)) uid));;
    fav ← gets (fun s => favourite_query uid (visit_log s));
    match fav with
    | Some (p, _) => execute_write locked (set_stats (alter (with_favorite p) uid))
    | None => mret tt
    end).

(** [mark_visit]: its [INSERT] takes the write lock of its connection, and
    [update_visit_stats] is called before the block ends. *)
Definition mark_visit (uid pid : Z) (now : Z) : M unit :=
  transaction (
    modify (set_visit_log (fun log =>
      log ++ [{| visit_user := uid; visit_poi := pid; visited_at := now |}]));;
    update_visit_stats true uid now).

(** ** NavigationState (main.py, lines 197-234) *)

(** [INSERT OR REPLACE INTO user_tracking(user_id, target_poi_id,
    notified_50m, notified_arrived) VALUES(?, ?, 0, 0)]: the row is
    replaced; the columns that are not listed take their defaults
    ([NULL], and [CURRENT_TIMESTAMP] for [last_update]). *)
Definition target_row (pid : Z) (now : Z) : tracking_row :=
  {| last_lat := None; last_lon := None; last_update := Some now;
     target_poi_id := Some pid; notified_50m := false; notified_arrived := false |}.

Definition set_navigation_target (uid pid : Z) (now : Z) : M unit :=
  transaction (modify (set_tracking <[uid := target_row pid now]>)).

(** The integers that a statement takes as a parameter.  The database
    binding refuses every other one with [OverflowError], before anything
    is written; the functions above and below are modelled on such ids,
    and the callbacks, which are handed an id from outside, model the
    refusal. *)
Definition int64 (z : Z) : Prop := - 2 ^ 63 <= z < 2 ^ 63.

#[global] Instance int64_dec (z : Z) : Decision (int64 z) :=
  decide (- 2 ^ 63 <= z /\ z < 2 ^ 63).

Definition cleared (r : tracking_row) : tracking_row :=
  {| last_lat := last_lat r; last_lon := last_lon r; last_update := last_update r;
     target_poi_id := None; notified_50m := false; notified_arrived := false |}.

Definition clear_navigation_target (uid : Z) : M unit :=
  transaction (modify (set_tracking (alter cleared uid))).

(** [INSERT OR REPLACE INTO user_tracking(user_id, last_lat, last_lon,
    last_update) VALUES(?, ?, ?, datetime('now'))]: again the whole row is
    replaced, the three columns that are not listed take their defaults. *)
Definition position_row (lat lon : R) (now : Z) : tracking_row :=
  {| last_lat := Some lat; last_lon := Some lon; last_update := Some now;
     target_poi_id := None; notified_50m := false; notified_arrived := false |}.

Definition add_distance (km : R) (r : stats_row) : stats_row :=
  with_total_distance (total_distance r + km)%R r.

Definition update_user_position (uid : Z) (lat lon : R) (now : Z) : M unit :=
  transaction (
    modify (insert_or_ignore_stats uid (date_of now));;
    last ← gets (fun s => user_tracking s !! uid);
    modify (set_tracking <[uid := position_row lat lon now]>);;
    match last with
    | Some r =>
        if float_truthy (last_lat r) then
          match last_lat r, last_lon r with
          | Some la, Some lo =>
              let d := haversine la lo lat lon in
              if decide (5 < d)%R
              then modify (set_stats (alter (add_distance (d / 1000)%R) uid))
              else mret tt
          | _, _ => raise TypeError
          end
        else mret tt
    | None => mret tt
    end).

(** ** Location handlers (main.py, lines 590-749) *)

(** What the handlers read of a Telegram update: the user, whether it
    carries a new message ([u.message], possibly with an [edit_date]) or
    an edited one ([u.edited_message]), and the location. *)
Inductive update_kind := NewMessage (edit_date : bool) | EditedMessage.

Record update := {
  upd_user : Z;
  upd_kind : update_kind;
  upd_loc : option (R * R)
}.

(** [u.message] is set *)
Definition has_message (u : update) : bool :=
  match upd_kind u with NewMessage _ => true | EditedMessage => false end.

(** [u.edited_message or (m.edit_date and m.location)] *)
Definition is_live (u : update) : bool :=
  match upd_kind u with NewMessage e => e | EditedMessage => true end.

(** [show_poi_info]: an update without [message] (and without
    [callback_query], which a location update never has) is logged and
    dropped.  The personalised text is not modelled.  The card is sent
    before [mark_visit] is called. *)
Definition show_poi_info (why : card_origin) (u : update) (p : poi_row) (distance : R)
    (now : Z) : M unit :=
  if has_message u then
    let uid := upd_user u in
    next_pois ← gets (find_nearest_unvisited uid (poi_lat p) (poi_lon p) 2 now);
    emit (PoiCard why uid (poi_id p) distance (poi_id ∘ hit_poi <$> head next_pois));;
    mark_visit uid (poi_id p) now
  else mret tt.

Definition set_notified_50m (r : tracking_row) : tracking_row :=
  {| last_lat := last_lat r; last_lon := last_lon r; last_update := last_update r;
     target_poi_id := target_poi_id r; notified_50m := true;
     notified_arrived := notified_arrived r |}.

Definition set_notified_arrived (r : tracking_row) : tracking_row :=
  {| last_lat := last_lat r; last_lon := last_lon r; last_update := last_update r;
     target_poi_id := target_poi_id r; notified_50m := notified_50m r;
     notified_arrived := true |}.

(** The branch of [handle_live_location] without a target. *)
Definition offer_targets (uid : Z) (lat lon : R) (now : Z) : M unit :=
  pois ← gets (find_nearest_unvisited uid lat lon 3 now);
  match pois with
  | [] => mret tt
  | _ :: _ => emit (ChooseTarget uid (map (poi_id ∘ hit_poi) pois))
  end.

(** The branch of [handle_live_location] with a target; the bearing glyph
    only decorates the text and is left out. *)
Definition navigate (u : update) (track : tracking_row) (target : Z) (lat lon : R)
    (now : Z) : M unit :=
  let uid := upd_user u in
  found ← gets (get_poi_by_id target);
  match found with
  | None => raise TypeError
  | Some p =>
      let d := haversine lat lon (poi_lat p) (poi_lon p) in
      if decide (d <= RADIUS)%R then
        if notified_arrived track then mret tt
        else
          show_poi_info Arrived u p d now;;
          clear_navigation_target uid;;
          transaction (modify (set_tracking (alter set_notified_arrived uid)))
      else if decide (d <= 50)%R then
        if notified_50m track then mret tt
        else
          emit (NavNear uid (poi_id p) d);;
          transaction (modify (set_tracking (alter set_notified_50m uid)))
      else emit (NavProgress uid (poi_id p) d)
  end.

Definition handle_live_location (u : update) (lat lon : R) (now : Z) : M unit :=
  let uid := upd_user u in
  track ← gets (fun s => user_tracking s !! uid);
  match track with
  | Some r =>
      if int_truthy (target_poi_id r)
      then navigate u r (default 0 (target_poi_id r)) lat lon now
      else offer_targets uid lat lon now
  | None => offer_targets uid lat lon now
  end.

(** [show_nearest_poi], which [on_location] calls for an update with a
    [message]: [show_poi_info] sends the card and raises, so the level
    messages that follow it in the source (lines 688-704) are never sent
    and are left out. *)
Definition show_nearest_poi (u : update) (lat lon : R) (now : Z) : M unit :=
  found ← gets (nearest (upd_user u) lat lon now);
  match found with
  | None => emit (NoNearbyPoi (upd_user u))
  | Some h =>
      let p := hit_poi h in
      show_poi_info Surfaced u p (haversine lat lon (poi_lat p) (poi_lon p)) now
  end.

Definition on_location (u : update) (now : Z) : M unit :=
  match upd_loc u with
  | None => mret tt
  | Some (lat, lon) =>
      update_user_position (upd_user u) lat lon now;;
      if is_live u then handle_live_location u lat lon now
      else show_nearest_poi u lat lon now
  end.

(** [cmd_reset] (main.py, lines 752-757) *)
Definition cmd_reset (uid : Z) : M unit :=
  transaction (
    modify (set_visit_log (List.filter (fun v => negb (visit_user v =? uid))));;
    modify (set_tracking (delete uid));;
    modify (set_stats (alter (with_total_distance 0%R) uid))).

(** ** The operations of the engine as a transition system *)

Inductive op :=
| SetTarget (uid pid : Z)                   (* set_navigation_target *)
| ClearTarget (uid : Z)                     (* clear_navigation_target *)
| Location (u : update)                     (* on_location *)
| LiveLocation (u : update) (lat lon : R)   (* handle_live_location *)
| RecordVisit (uid pid : Z)                 (* mark_visit *)
| ResetUser (uid : Z).                      (* cmd_reset *)

Definition step (o : op) (now : Z) : M unit :=
  match o with
  | SetTarget uid pid => set_navigation_target uid pid now
  | ClearTarget uid => clear_navigation_target uid
  | Location u => on_location u now
  | LiveLocation u lat lon => handle_live_location u lat lon now
  | RecordVisit uid pid => mark_visit uid pid now
  | ResetUser uid => cmd_reset uid
  end.

(** A handler that raises ends its own unit of work only: the next
    operation starts from the store as the failed one left it. *)
Fixpoint run (ops : list (op * Z)) (s : db) : db * list event :=
  match ops with
  | [] => (s, [])
  | (o, now) :: rest =>
      let r := step o now s in
      let '(s', out) := run rest (final_db r) in
      (s', output r ++ out)
  end.

(** The events the specification calls "arrived" and "near". *)
Definition is_arrived (uid : Z) (e : event) : bool :=
  match e with
  | PoiCard Arrived uid' _ _ _ => uid' =? uid
  | _ => false
  end.

Definition is_near (uid : Z) (e : event) : bool :=
  match e with
  | NavNear uid' _ _ => uid' =? uid
  | _ => false
  end.

Definition count_events (f : event -> bool) (out : list event) : nat :=
  length (List.filter f out).


(** ** Predicates of the specification *)

(** A catalogue entry that the cool-down filter lets through at [now]. *)
Definition eligible (uid : Z) (now : Z) (s : db) (p : poi_row) : Prop :=
  In p (poi s) /\ recently_visited (visit_log s) uid (revisit_limit now) p = false.

(** [visitCount(userId, poiId)] *)
Definition visit_count (uid pid : Z) (log : list visit_row) : Z :=
  Z.of_nat (count_occ Z.eq_dec (user_visits uid log) pid).

(** [total_distance] of a user, 0 while the user has no statistics row. *)
Definition distance_walked (uid : Z) (s : db) : R :=
  match user_stats s !! uid with
  | Some r => total_distance r
  | None => 0%R
  end.



(** What one call of [handle_live_location] for user [uid] does to the
    navigation table [t] and which navigation events it sends: nothing of
    either; the arrival card, after which the call raises and the table is
    as before; the arrival without a card (an update without [message]),
    which clears the target and raises the arrived flag; the near
    message, which raises the near flag. *)
Inductive live_outcome (uid : Z) (t : gmap Z tracking_row) (r : result unit) : Prop :=
| LiveIdle :
    user_tracking (final_db r) = t ->
    (forall w, count_events (is_arrived w) (output r) = 0%nat
               /\ count_events (is_near w) (output r) = 0%nat) ->
    live_outcome uid t r
| LiveCard (track : tracking_row) :
    t !! uid = Some track ->
    int_truthy (target_poi_id track) = true ->
    user_tracking (final_db r) = t ->
    (forall w, count_events (is_near w) (output r) = 0%nat) ->
    live_outcome uid t r
| LiveArrived (track : tracking_row) :
    t !! uid = Some track ->
    int_truthy (target_poi_id track) = true ->
    notified_arrived track = false ->
    user_tracking (final_db r) = alter set_notified_arrived uid (alter cleared uid t) ->
    (forall w, count_events (is_arrived w) (output r) = 0%nat
               /\ count_events (is_near w) (output r) = 0%nat) ->
    live_outcome uid t r
| LiveNear (track : tracking_row) :
    t !! uid = Some track ->
    int_truthy (target_poi_id track) = true ->
    notified_50m track = false ->
    user_tracking (final_db r) = alter set_notified_50m uid t ->
    (forall w, count_events (is_arrived w) (output r) = 0%nat
               /\ (count_events (is_near w) (output r) <= 1)%nat) ->
    (forall w, w <> uid -> count_events (is_near w) (output r) = 0%nat) ->
    live_outcome uid t r.


(** ** Concrete stores and updates for the examples *)

(** The entry of the demo catalogue that [import_csv] writes. *)
Definition kavalerskie : poi_row :=
  {| poi_id := 1; name_ru := "Kavalerskie doma";
     poi_lat := 59.71618%R; poi_lon := 30.39530%R; summary_ru := "1752-1753" |}.

Definition demo_db : db :=
  {| poi := [kavalerskie]; visit_log := []; user_tracking := ∅; user_stats := ∅ |}.

Definition live_report (uid : Z) (lat lon : R) : update :=
  {| upd_user := uid; upd_kind := EditedMessage; upd_loc := Some (lat, lon) |}.

Definition fresh_report (uid : Z) (lat lon : R) : update :=
  {| upd_user := uid; upd_kind := NewMessage false; upd_loc := Some (lat, lon) |}.

(** A catalogue with one entry on the equator, a ten-thousandth of a
    degree east of the origin. *)
Definition equator_poi : poi_row :=
  {| poi_id := 7; name_ru := "Equator"; poi_lat := 0%R; poi_lon := 0.0001%R;
     summary_ru := "" |}.

Definition equator_db : db :=
  {| poi := [equator_poi]; visit_log := []; user_tracking := ∅; user_stats := ∅ |}.

(** A catalogue with one entry on the equator, three ten-thousandths of a
    degree east of the origin: some 33 m away. *)
Definition east_poi : poi_row :=
  {| poi_id := 8; name_ru := "Equator, further east"; poi_lat := 0%R;
     poi_lon := 0.0003%R; summary_ru := "" |}.

Definition east_db : db :=
  {| poi := [east_poi]; visit_log := []; user_tracking := ∅; user_stats := ∅ |}.

(** The demo catalogue with one visit of user 1 to POI 1 at time 1000. *)
Definition visited_db : db :=
  {| poi := [kavalerskie];
     visit_log := [{| visit_user := 1; visit_poi := 1; visited_at := 1000 |}];
     user_tracking := ∅; user_stats := ∅ |}.

(** A catalogue of two entries. *)
Definition palace : poi_row :=
  {| poi_id := 2; name_ru := "Ekaterininsky dvorets";
     poi_lat := 59.71610%R; poi_lon := 30.39560%R; summary_ru := "1717" |}.

Definition two_poi_db : db :=
  {| poi := [kavalerskie; palace]; visit_log := []; user_tracking := ∅;
     user_stats := ∅ |}.

(** A store in which user 1 has a statistics row. *)
Definition walker_db : db :=
  {| poi := [kavalerskie]; visit_log := []; user_tracking := ∅;
     user_stats := {[ 1 := new_stats 0 ]} |}.

(** ** Catalogue import ([import_csv], main.py, lines 93-126)

    What a line of [locations.csv] gives to the loop: the stripped name
    and text with the two coordinates ([Row]); an exception in the body
    of the loop, when a column is missing or the coordinates are not two
    numbers, which the loop catches and logs ([Malformed]); or an
    exception of the reader itself (a byte that is not UTF-8, a field
    over the size limit), which is raised by the [for] statement, outside
    the [try], and so leaves [import_csv] ([Unreadable]).  The coordinates
    of a row are numbers: a line that [float] reads as [nan] is outside
    the model, as said at the head of the file.  The text-level work of
    [csv.DictReader] and [float] is not modelled, nor is the demo file
    written when there is none. *)

Record csv_row := {
  csv_name : string;
  csv_text : string;
  csv_lat : R;
  csv_lon : R
}.

Inductive csv_line :=
| Unreadable
| Malformed
| Row (r : csv_row).

(** The reader delivers every line. *)
Definition readable (rows : list csv_line) : bool :=
  forallb (fun line => match line with Unreadable => false | _ => true end) rows.

Definition set_poi (f : list poi_row -> list poi_row) (s : db) : db :=
  {| poi := f (poi s); visit_log := visit_log s;
     user_tracking := user_tracking s; user_stats := user_stats s |}.

(** [UNIQUE(name_ru, lat, lon)] *)
Definition same_place (r : csv_row) (p : poi_row) : bool :=
  String.eqb (csv_name r) (name_ru p)
  && bool_decide (csv_lat r = poi_lat p) && bool_decide (csv_lon r = poi_lon p).

(** The largest rowid of the table; a new row of an [INTEGER PRIMARY KEY]
    table gets the next one, and 1 in an empty table. *)
Fixpoint max_rowid (l : list poi_row) : option Z :=
  match l with
  | [] => None
  | p :: l' =>
      Some (match max_rowid l' with
            | None => poi_id p
            | Some m => Z.max (poi_id p) m
            end)
  end.

Definition next_rowid (l : list poi_row) : Z :=
  match max_rowid l with
  | None => 1
  | Some m => m + 1
  end.

(** [INSERT OR IGNORE INTO poi(name_ru, lat, lon, summary_ru)]; the flag is
    [cursor.rowcount > 0]. *)
Definition insert_or_ignore_poi (r : csv_row) (l : list poi_row) : list poi_row * bool :=
  if existsb (same_place r) l then (l, false)
  else (l ++ [{| poi_id := next_rowid l; name_ru := csv_name r;
                 poi_lat := csv_lat r; poi_lon := csv_lon r;
                 summary_ru := csv_text r |}], true).

(** The loop over the lines, with its counter [inserted]; [None] when the
    reader fails. *)
Fixpoint import_rows (rows : list csv_line) (l : list poi_row) (inserted : Z)
  : option (list poi_row * Z) :=
  match rows with
  | [] => Some (l, inserted)
  | Unreadable :: _ => None
  | Malformed :: rest => import_rows rest l inserted
  | Row r :: rest =>
      let '(l1, added) := insert_or_ignore_poi r l in
      import_rows rest l1 (if added then inserted + 1 else inserted)
  end.

Definition import_csv (rows : list csv_line) : M Z :=
  transaction (
    l ← gets poi;
    match import_rows rows l 0 with
    | Some (l1, inserted) =>
        modify (set_poi (fun _ => l1));;
        mret inserted
    | None => raise ReaderError
    end).

(** The key of the uniqueness constraint, and the two properties of the
    catalogue that the import keeps. *)
Definition place_of (p : poi_row) : string * R * R := (name_ru p, poi_lat p, poi_lon p).

Definition ids_ascending (l : list poi_row) : Prop :=
  StronglySorted Z.lt (map poi_id l).

Definition places_unique (l : list poi_row) : Prop := NoDup (map place_of l).

(** ** Achievements (main.py, lines 286-288 and 317-341) *)

Definition LEVELS : list (Z * string) :=
  [(1, "🌱 Первооткрыватель"%string);
   (3, "🚶‍♀️ Любознательный путник"%string);
   (5, "🔍 Исследователь"%string);
   (10, "🏛️ Знаток императорского города"%string);
   (15, "🎭 Царскосельский хроникёр"%string);
   (20, "👑 Хранитель истории"%string)].

(** [SELECT COUNT( * ) FROM poi] *)
Definition poi_count (s : db) : Z := Z.of_nat (length (poi s)).

(** [SELECT COUNT(DISTINCT poi_id) FROM visit_log WHERE user_id=?] *)
Definition visited_places (uid : Z) (s : db) : Z :=
  Z.of_nat (size (list_to_set (user_visits uid (visit_log s)) : gset Z)).

(** The loop of [user_stats] over [LEVELS]: the title of the last level
    reached. *)
Definition level_title (visited : Z) : string :=
  fold_left (fun title '(n, t) => if n <=? visited then t else title) LEVELS "💫 Гость"%string.

(** [user_stats(uid)]; the name is that of the statistics table too, hence
    the name space. *)
Module Achievements.
Definition user_stats (uid : Z) (s : db) : Z * Z * string :=
  (visited_places uid s, poi_count s, level_title (visited_places uid s)).
End Achievements.

(** The loop of [next_level_info]. *)
Fixpoint next_level_in (levels : list (Z * string)) (visited : Z) : Z * option string :=
  match levels with
  | [] => (0, None)
  | (n, title) :: rest =>
      if visited <? n then (n - visited, Some title) else next_level_in rest visited
  end.

Definition next_level_info (visited : Z) : Z * option string := next_level_in LEVELS visited.


(** ** Route suggestion ([cmd_route], main.py, lines 381-414)

    The three replies; the glyphs and the rounding of the text are left
    out.  [None] stands for an exception: with a latitude and no
    longitude in the row the query hands [NULL] to the registered [pow],
    which fails as soon as one row has to be ranked. *)
Inductive route_reply :=
| AskLocation
| AllVisited
| Route (stops : list hit).

Definition cmd_route (uid now : Z) (s : db) : option route_reply :=
  match user_tracking s !! uid with
  | None => Some AskLocation
  | Some track =>
      if float_truthy (last_lat track) then
        match last_lat track, last_lon track with
        | Some la, Some lo =>
            match find_nearest_unvisited uid la lo 3 now s with
            | [] => Some AllVisited
            | pois => Some (Route pois)
            end
        | _, _ =>
            match unvisited uid now s with
            | [] => Some AllVisited
            | _ => None
            end
        end
      else Some AskLocation
  end.

(** ** Bearing glyph ([get_direction], main.py, lines 184-195)

    Floats are real numbers here too; [atan2] is the one of [math] on
    numbers without a signed zero. *)

(** [math.degrees] *)
Definition degrees (x : R) : R := (x * 180 / PI)%R.

(** [math.atan2(y, x)], signed zeros apart *)
Definition atan2 (y x : R) : R :=
  if decide (0 < x)%R then atan (y / x)
  else if decide (x < 0)%R then
    if decide (0 <= y)%R then (atan (y / x) + PI)%R else (atan (y / x) - PI)%R
  else if decide (0 < y)%R then (PI / 2)%R
  else if decide (y < 0)%R then (- PI / 2)%R
  else 0%R.

(** [a % m] on floats, for a positive [m] *)
Definition float_mod (a m : R) : R := (a - m * IZR (Int_part (a / m)))%R.

(** [round(x)]: the nearest integer, the even one of two equally near *)
Definition round (x : R) : Z :=
  let f := Int_part x in
  if decide (x - IZR f < 1 / 2)%R then f
  else if decide (1 / 2 < x - IZR f)%R then f + 1
  else if Z.even f then f else f + 1.

Definition directions : list string :=
  ["⬆️"%string; "↗️"%string; "➡️"%string; "↘️"%string;
   "⬇️"%string; "↙️"%string; "⬅️"%string; "↖️"%string].

(** [None] would be the [IndexError] of [directions[index]]. *)
Definition get_direction (lat1 lon1 lat2 lon2 : R) : option string :=
  let dlon := (lon2 - lon1)%R in
  let y := (sin (radians dlon) * cos (radians lat2))%R in
  let x := (cos (radians lat1) * sin (radians lat2)
            - sin (radians lat1) * cos (radians lat2) * cos (radians dlon))%R in
  let bearing := degrees (atan2 y x) in
  let bearing := float_mod (bearing + 360) 360 in
  let index := round (bearing / 45) mod 8 in
  nth_error directions (Z.to_nat index).

From Stdlib Require Import Ascii.

(** ** Interests and callbacks (main.py, lines 237-278, 417-436 and 438-567)

    The table [user_interests] is a store of its own: no other function
    of the program reads or writes it.  Its rows are kept in the order of
    insertion; the order in which [SELECT] returns them is not fixed by
    SQL, and the properties below speak of membership only. *)

Definition INTERESTS : list (string * string) :=
  [("history"%string, "📜 История"%string);
   ("architecture"%string, "🏛️ Архитектура"%string);
   ("legends"%string, "🔮 Легенды"%string);
   ("people"%string, "👤 Великие люди"%string);
   ("nature"%string, "🌳 Природа и парки"%string)].

(** The rows of [user_interests], [PRIMARY KEY (user_id, interest)]. *)
Definition interests_table : Type := list (Z * string).

Definition same_interest (uid : Z) (interest : string) (r : Z * string) : bool :=
  (fst r =? uid) && String.eqb (snd r) interest.

Definition get_user_interests (uid : Z) (t : interests_table) : list string :=
  map snd (List.filter (fun r => fst r =? uid) t).

Definition add_user_interest (uid : Z) (interest : string) (t : interests_table)
  : interests_table :=
  if existsb (same_interest uid interest) t then t else t ++ [(uid, interest)].

Definition remove_user_interest (uid : Z) (interest : string) (t : interests_table)
  : interests_table :=
  List.filter (fun r => negb (same_interest uid interest r)) t.

(** [x in l] on a list of strings *)
Definition str_in (x : string) (l : list string) : bool := existsb (String.eqb x) l.

Definition get_personalized_description (p : poi_row) (interests : list string) : string :=
  let text := summary_ru p in
  match interests with
  | [] => text
  | _ :: _ =>
      let tags :=
        (if str_in "history" interests then ["📜"%string] else [])
        ++ (if str_in "architecture" interests then ["🏛️"%string] else [])
        ++ (if str_in "legends" interests then ["🔮"%string] else []) in
      match tags with
      | [] => text
      | _ :: _ => (String.concat " " tags ++ " " ++ text)%string
      end
  end.

(** [s.split(sep)] for a separator of one character *)
Fixpoint split (sep : ascii) (s : string) : list string :=
  match s with
  | EmptyString => [EmptyString]
  | String c s' =>
      if Ascii.eqb c sep then EmptyString :: split sep s'
      else match split sep s' with
           | [] => [String c EmptyString]
           | w :: ws => String c w :: ws
           end
  end.

(** The branches of [on_callback]; the payload of the first two is read
    by [int], which is not modelled. [BadData] is the [IndexError]. *)
Inductive callback :=
| ShowNext (payload : string)
| Navigate (payload : string)
| InterestAdd (key : string)
| InterestRemove (key : string)
| InterestsDone
| BadData
| Ignored.

Definition part (i : nat) (data : string) (k : string -> callback) : callback :=
  match nth_error (split "_" data) i with
  | Some p => k p
  | None => BadData
  end.

Definition parse_callback (data : string) : callback :=
  if String.prefix "show_next_" data then part 2 data ShowNext
  else if String.prefix "navigate_" data then part 1 data Navigate
  else if String.prefix "interest_add_" data then part 2 data InterestAdd
  else if String.prefix "interest_remove_" data then part 2 data InterestRemove
  else if String.eqb data "interests_done" then InterestsDone
  else Ignored.

(** The [callback_data] of the button that [cmd_interests] shows for [key]. *)
Definition interest_button (current : list string) (key : string) : string :=
  if str_in key current then ("interest_remove_" ++ key)%string
  else ("interest_add_" ++ key)%string.

(** The two interest branches of [on_callback] on the table. *)
Definition on_interest_callback (uid : Z) (data : string) (t : interests_table)
  : interests_table :=
  match parse_callback data with
  | InterestAdd key => add_user_interest uid key t
  | InterestRemove key => remove_user_interest uid key t
  | _ => t
  end.

(** No ["_"] in the string. *)
Fixpoint plain (s : string) : bool :=
  match s with
  | EmptyString => true
  | String c s' => negb (Ascii.eqb c "_") && plain s'
  end.

(** ** The store before and after an operation *)

(** An operation that erases the history of [uid]. *)
Definition resets (uid : Z) (o : op) : bool :=
  match o with
  | ResetUser uid' => uid' =? uid
  | _ => false
  end.

(** How the statistics table changes: rows stay, [first_visit] stays,
    [total_distance] stays non-negative and, for the users outside
    [reset], does not go down. *)
Definition stats_evolve (reset : Z -> bool) (t t' : gmap Z stats_row) : Prop :=
  forall w,
    match t !! w, t' !! w with
    | Some r, Some r' =>
        first_visit r' = first_visit r
        /\ (reset w = false -> (total_distance r <= total_distance r')%R)
        /\ ((0 <= total_distance r)%R -> (0 <= total_distance r')%R)
    | Some _, None => False
    | None, Some r' => (0 <= total_distance r')%R
    | None, None => True
    end.

(** What a handler other than [cmd_reset] leaves of the store: the
    catalogue and the ledger as they were and the statistics up to
    [stats_evolve]; and when it has sent a card, it has raised. *)
Definition handler_frame {A : Type} (s : db) (r : result A) : Prop :=
  poi (final_db r) = poi s
  /\ visit_log (final_db r) = visit_log s
  /\ stats_evolve (fun _ => false) (user_stats s) (user_stats (final_db r))
  /\ forall why uid pid d nx,
       In (PoiCard why uid pid d nx) (output r) ->
       exists s' out, r = Raised OperationalError s' out.

(** Every navigation row that holds a latitude holds a longitude too. *)
Definition positions_complete (s : db) : Prop :=
  forall uid r, user_tracking s !! uid = Some r ->
                is_Some (last_lat r) -> is_Some (last_lon r).

(** ** The callbacks that write the store (main.py, lines 458-540)

    What the branches [show_next_] and [navigate_] of [on_callback] do to
    the store, from the id that [int] has read; the texts they send are
    not among the events and are left out.  An exception ends the branch:
    the handler catches it and answers with an error.  [int] reads ids of
    any size, and the first statement that is handed one outside 64 bits
    raises. *)

(** [show_next_]: the entry is looked up, the distance for the caption is
    computed from the stored position, then [mark_visit] is called; what
    follows it in the source is never reached. *)
Definition on_callback_show_next (uid pid now : Z) : M unit :=
  if bool_decide (int64 pid) then
    found ← gets (get_poi_by_id pid);
    match found with
    | None => mret tt
    | Some p =>
        track ← gets (fun s => user_tracking s !! uid);
        match track with
        | Some r =>
            if float_truthy (last_lat r) then
              match last_lat r, last_lon r with
              | Some _, Some _ => mret tt
              | _, _ => raise TypeError
              end
            else mret tt
        | None => mret tt
        end;;
        mark_visit uid (poi_id p) now
    end
  else raise OverflowError.

(** [navigate_]: the target is set, then the entry is looked up for its
    name. *)
Definition on_callback_navigate (uid pid now : Z) : M unit :=
  if bool_decide (int64 pid) then
    set_navigation_target uid pid now;;
    found ← gets (get_poi_by_id pid);
    match found with
    | None => raise TypeError
    | Some _ => mret tt
    end
  else raise OverflowError.

(** Every row of the ledger names a catalogue entry. *)
Definition ledger_in_catalogue (s : db) : Prop :=
  forall v, In v (visit_log s) -> exists p, In p (poi s) /\ poi_id p = visit_poi v.

(** A call of [mark_visit] on its own. *)
Definition direct_visit (o : op) : bool :=
  match o with
  | RecordVisit _ _ => true
  | _ => false
  end.

(** * Properties *)

(** ** GeoMath *)

Section GeoMathFacts.
Local Open Scope R_scope.

Lemma radians_0 : radians 0 = 0.
Proof. unfold radians. lra. Qed.

Lemma radians_opp (x : R) : radians (- x) = - radians x.
Proof. unfold radians. lra. Qed.

Lemma haversine_refl (lat lon : R) : haversine lat lon lat lon = 0.
Proof.
  unfold haversine; cbv zeta.
  replace (lat - lat) with 0 by lra.
  replace (lon - lon) with 0 by lra.
  rewrite radians_0.
  replace (0 / 2) with 0 by lra.
  rewrite sin_0.
  replace (0 ^ 2 + cos (radians lat) * cos (radians lat) * 0 ^ 2) with 0 by lra.
  rewrite sqrt_0, asin_0. lra.
Qed.

Lemma sin_half_sq_opp (x : R) : sin (- x / 2) ^ 2 = sin (x / 2) ^ 2.
Proof.
  replace (- x / 2) with (- (x / 2)) by lra.
  rewrite sin_neg. lra.
Qed.

Lemma haversine_sym (lat1 lon1 lat2 lon2 : R) :
  haversine lat1 lon1 lat2 lon2 = haversine lat2 lon2 lat1 lon1.
Proof.
  unfold haversine; cbv zeta.
  replace (lat1 - lat2) with (- (lat2 - lat1)) by lra.
  replace (lon1 - lon2) with (- (lon2 - lon1)) by lra.
  rewrite !radians_opp, !sin_half_sq_opp.
  rewrite (Rmult_comm (cos (radians lat2)) (cos (radians lat1))).
  reflexivity.
Qed.

(** C9. For all positions [a] and [b], [distance(a, a)] is 0 and
    [distance(a, b)] equals [distance(b, a)], in particular within a
    relative tolerance of 1e-6. *)
Theorem haversine_zero_and_symmetric (lat1 lon1 lat2 lon2 : R) :
  haversine lat1 lon1 lat1 lon1 = 0
  /\ haversine lat1 lon1 lat2 lon2 = haversine lat2 lon2 lat1 lon1
  /\ Rabs (haversine lat1 lon1 lat2 lon2 - haversine lat2 lon2 lat1 lon1)
     <= 1e-6 * Rabs (haversine lat1 lon1 lat2 lon2).
Proof.
  split; [apply haversine_refl|].
  split; [apply haversine_sym|].
  rewrite <- (haversine_sym lat1 lon1 lat2 lon2).
  replace (haversine lat1 lon1 lat2 lon2 - haversine lat1 lon1 lat2 lon2) with 0 by lra.
  rewrite Rabs_R0.
  apply Rmult_le_pos; [lra | apply Rabs_pos].
Qed.
End GeoMathFacts.

Section GeoMathDistances.
Local Open Scope R_scope.

Lemma PI_gt_3 : 3 < PI.
Proof. pose proof PI2_3_2. lra. Qed.

Lemma asin_sqrt_sin_sq (x : R) :
  0 <= x <= PI / 2 -> asin (sqrt (sin x ^ 2)) = x.
Proof.
  intros Hx. pose proof PI_RGT_0.
  rewrite sqrt_pow2 by (apply sin_ge_0; lra).
  apply asin_sin. lra.
Qed.

(** Two points on one meridian: the haversine distance is the arc. *)
Lemma haversine_meridian (lat1 lat2 lon : R) :
  0 <= lat2 - lat1 <= 180 ->
  haversine lat1 lon lat2 lon = R_EARTH * radians (lat2 - lat1).
Proof.
  intros H. pose proof PI_RGT_0.
  unfold haversine; cbv zeta.
  replace (lon - lon) with 0 by lra.
  rewrite radians_0. replace (0 / 2) with 0 by lra. rewrite sin_0.
  replace (sin (radians (lat2 - lat1) / 2) ^ 2
           + cos (radians lat1) * cos (radians lat2) * 0 ^ 2)
    with (sin (radians (lat2 - lat1) / 2) ^ 2) by lra.
  rewrite asin_sqrt_sin_sq; [lra|].
  unfold radians. split; nra.
Qed.

(** Two points on the equator. *)
Lemma haversine_equator (lon1 lon2 : R) :
  0 <= lon2 - lon1 <= 180 ->
  haversine 0 lon1 0 lon2 = R_EARTH * radians (lon2 - lon1).
Proof.
  intros H. pose proof PI_RGT_0.
  unfold haversine; cbv zeta.
  replace (0 - 0) with 0 by lra.
  rewrite radians_0. replace (0 / 2) with 0 by lra. rewrite sin_0, cos_0.
  replace (0 ^ 2 + 1 * 1 * sin (radians (lon2 - lon1) / 2) ^ 2)
    with (sin (radians (lon2 - lon1) / 2) ^ 2) by lra.
  rewrite asin_sqrt_sin_sq; [lra|].
  unfold radians. split; nra.
Qed.
End GeoMathDistances.

(** ** The monad: unfolding and basic facts *)

Ltac unfold_m :=
  unfold mbind, M_bind, mret, M_ret, gets, modify, emit, raise, transaction in *.

Lemma tracking_insert_or_ignore_stats (uid today : Z) (s : db) :
  user_tracking (insert_or_ignore_stats uid today s) = user_tracking s.
Proof. unfold insert_or_ignore_stats. destruct (user_stats s !! uid); reflexivity. Qed.

Lemma poi_insert_or_ignore_stats (uid today : Z) (s : db) :
  poi (insert_or_ignore_stats uid today s) = poi s.
Proof. unfold insert_or_ignore_stats. destruct (user_stats s !! uid); reflexivity. Qed.

Lemma visit_log_insert_or_ignore_stats (uid today : Z) (s : db) :
  visit_log (insert_or_ignore_stats uid today s) = visit_log s.
Proof. unfold insert_or_ignore_stats. destruct (user_stats s !! uid); reflexivity. Qed.

(** ** The position-update step *)

(** What [update_user_position] does to the store: when it returns, the
    user's navigation row is the freshly built [position_row] (no target,
    both flags down) and the catalogue and the ledger are as before; when
    it raises, the store is as before. It sends nothing. *)
Lemma update_user_position_effect (uid : Z) (lat lon : R) (now : Z) (s : db) :
  match update_user_position uid lat lon now s with
  | Done _ s' out =>
      user_tracking s' = <[uid := position_row lat lon now]> (user_tracking s)
      /\ poi s' = poi s /\ visit_log s' = visit_log s /\ out = []
  | Raised _ s' out => s' = s /\ out = []
  end.
Proof.
  unfold update_user_position. unfold_m.
  rewrite tracking_insert_or_ignore_stats.
  destruct (user_tracking s !! uid) as [r|]; simpl.
  - destruct (float_truthy (last_lat r)); simpl.
    + destruct (last_lat r), (last_lon r); simpl; auto.
      case_decide; simpl;
        rewrite ?tracking_insert_or_ignore_stats, ?poi_insert_or_ignore_stats,
                ?visit_log_insert_or_ignore_stats; auto.
    + rewrite tracking_insert_or_ignore_stats, poi_insert_or_ignore_stats,
              visit_log_insert_or_ignore_stats; auto.
  - rewrite tracking_insert_or_ignore_stats, poi_insert_or_ignore_stats,
            visit_log_insert_or_ignore_stats; auto.
Qed.

(** ** ORDER BY and LIMIT *)

Section OrderByFacts.
Context {A : Type} (le : A -> A -> bool).

Lemma In_insert_by (x y : A) (l : list A) :
  In y (insert_by le x l) <-> y = x \/ In y l.
Proof.
  induction l as [|z l IH]; simpl.
  - intuition.
  - destruct (le x z); simpl; rewrite ?IH; intuition.
Qed.

Lemma In_order_by (y : A) (l : list A) : In y (order_by le l) <-> In y l.
Proof.
  induction l as [|x l IH]; simpl; [tauto|].
  rewrite In_insert_by, IH. intuition.
Qed.

Lemma length_insert_by (x : A) (l : list A) :
  length (insert_by le x l) = S (length l).
Proof.
  induction l as [|z l IH]; simpl; [reflexivity|].
  destruct (le x z); simpl; congruence.
Qed.

Lemma length_order_by (l : list A) : length (order_by le l) = length l.
Proof.
  induction l as [|x l IH]; simpl; [reflexivity|].
  rewrite length_insert_by. congruence.
Qed.

(** The first row after sorting [x :: l]: [x] itself when it may stand
    before the first row of the sorted tail (so an earlier row wins a
    tie), that first row otherwise. *)
Lemma head_order_by_cons (x : A) (l : list A) :
  head (order_by le (x :: l)) =
  match head (order_by le l) with
  | None => Some x
  | Some h => if le x h then Some x else Some h
  end.
Proof.
  simpl. destruct (order_by le l) as [|h t]; simpl; [reflexivity|].
  destruct (le x h); reflexivity.
Qed.

Lemma head_order_by_None (l : list A) : head (order_by le l) = None <-> l = [].
Proof.
  destruct l as [|x l]; [simpl; tauto|].
  rewrite head_order_by_cons.
  split; [|discriminate].
  destruct (head (order_by le l)) as [h|]; [destruct (le x h)|]; discriminate.
Qed.

Hypothesis le_total : forall x y, le x y = true \/ le y x = true.
Hypothesis le_trans : forall x y z, le x y = true -> le y z = true -> le x z = true.

Lemma le_refl' (x : A) : le x x = true.
Proof. destruct (le_total x x); assumption. Qed.

(** The first row after sorting is a least row. *)
Lemma head_order_by_least (l : list A) (h : A) :
  head (order_by le l) = Some h ->
  In h l /\ forall y, In y l -> le h y = true.
Proof.
  revert h. induction l as [|x l IH]; intros h; [discriminate|].
  rewrite head_order_by_cons.
  destruct (head (order_by le l)) as [h'|] eqn:Hh.
  - destruct (IH h' eq_refl) as [Hin Hle].
    destruct (le x h') eqn:Hx; intros [= <-].
    + split; [left; reflexivity|].
      intros y [<-|Hy]; [apply le_refl'|]. eauto.
    + split; [right; assumption|].
      intros y [<-|Hy]; [|auto].
      destruct (le_total h' x) as [?|Hc]; [assumption|congruence].
  - apply head_order_by_None in Hh. subst l. intros [= <-].
    split; [left; reflexivity|].
    intros y [<-|[]]. apply le_refl'.
Qed.

(** Stability at the head: a row that stands before the winner in the
    scan is strictly worse than it. *)
Lemma head_order_by_first (l : list A) (h : A) :
  head (order_by le l) = Some h ->
  exists l1 l2, l = l1 ++ h :: l2 /\ forall y, In y l1 -> le y h = false.
Proof.
  revert h. induction l as [|x l IH]; intros h; [discriminate|].
  rewrite head_order_by_cons.
  destruct (head (order_by le l)) as [h'|] eqn:Hh.
  - destruct (le x h') eqn:Hx; intros [= <-].
    + exists [], l. split; [reflexivity|]. intros y [].
    + destruct (IH h' eq_refl) as (l1 & l2 & -> & Hl1).
      exists (x :: l1), l2. split; [reflexivity|].
      intros y [<-|Hy]; auto.
  - intros [= <-]. exists [], l. split; [reflexivity|]. intros y [].
Qed.
End OrderByFacts.

Lemma In_sql_limit {A : Type} (n : Z) (l : list A) (x : A) :
  In x (sql_limit n l) -> In x l.
Proof.
  unfold sql_limit. destruct (n <? 0); [tauto|].
  intros H. rewrite <- (firstn_skipn (Z.to_nat n) l). apply in_or_app. tauto.
Qed.

Lemma head_sql_limit_1 {A : Type} (l : list A) : head (sql_limit 1 l) = head l.
Proof. destruct l; reflexivity. Qed.

Lemma sql_limit_unbounded {A : Type} (n : Z) (l : list A) :
  n < 0 \/ Z.of_nat (length l) <= n -> sql_limit n l = l.
Proof.
  unfold sql_limit. intros [H|H].
  - apply Z.ltb_lt in H. rewrite H. reflexivity.
  - destruct (n <? 0); [reflexivity|]. apply firstn_all2. lia.
Qed.

Lemma length_sql_limit {A : Type} (n : Z) (l : list A) :
  0 <= n -> Z.of_nat (length (sql_limit n l)) <= n.
Proof.
  intros H. unfold sql_limit.
  destruct (n <? 0) eqn:E; [apply Z.ltb_lt in E; lia|].
  rewrite length_firstn. lia.
Qed.

(** ** ProximityFinder *)

Lemma dist_le_total (h1 h2 : hit) : dist_le h1 h2 = true \/ dist_le h2 h1 = true.
Proof.
  unfold dist_le. destruct (Rle_or_lt (dist h1) (dist h2)) as [H|H].
  - left. apply bool_decide_eq_true. exact H.
  - right. apply bool_decide_eq_true. lra.
Qed.

Lemma dist_le_trans (h1 h2 h3 : hit) :
  dist_le h1 h2 = true -> dist_le h2 h3 = true -> dist_le h1 h3 = true.
Proof.
  unfold dist_le. rewrite !bool_decide_eq_true. lra.
Qed.

Lemma In_unvisited (uid now : Z) (s : db) (p : poi_row) :
  In p (unvisited uid now s) <-> eligible uid now s p.
Proof.
  unfold unvisited, eligible. rewrite filter_In, negb_true_iff. tauto.
Qed.

(** A visit inside the cool-down window makes the filter reject the POI. *)
Lemma recently_visited_true (log : list visit_row) (uid limit : Z) (p : poi_row) (v : visit_row) :
  In v log -> visit_user v = uid -> visit_poi v = poi_id p -> limit < visited_at v ->
  recently_visited log uid limit p = true.
Proof.
  intros Hin Hu Hp Ht. unfold recently_visited. apply existsb_exists.
  exists v. split; [assumption|].
  rewrite !andb_true_iff, !Z.eqb_eq, Z.ltb_lt. auto.
Qed.

(** Without such a visit it lets the POI through. *)
Lemma recently_visited_false (log : list visit_row) (uid limit : Z) (p : poi_row) :
  (forall v, In v log -> visit_user v = uid -> visit_poi v = poi_id p ->
             visited_at v <= limit) ->
  recently_visited log uid limit p = false.
Proof.
  intros H. unfold recently_visited.
  destruct (existsb _ log) eqn:E; [|reflexivity].
  apply existsb_exists in E. destruct E as (v & Hin & Hv).
  rewrite !andb_true_iff, !Z.eqb_eq, Z.ltb_lt in Hv.
  destruct Hv as [[Hu Hp] Ht]. specialize (H v Hin Hu Hp). lia.
Qed.

(** Every row of the ranking is an eligible catalogue entry with its
    [dist] column computed from it. *)
Lemma find_nearest_unvisited_rows (uid : Z) (lat lon : R) (limit now : Z) (s : db) (h : hit) :
  In h (find_nearest_unvisited uid lat lon limit now s) ->
  eligible uid now s (hit_poi h) /\ h = with_dist lat lon (hit_poi h).
Proof.
  unfold find_nearest_unvisited. intros H.
  apply In_sql_limit, In_order_by, in_map_iff in H.
  destruct H as (p & <- & Hp). apply In_unvisited in Hp. auto.
Qed.

Lemma nearest_row (uid : Z) (lat lon : R) (now : Z) (s : db) (h : hit) :
  nearest uid lat lon now s = Some h ->
  (eligible uid now s (hit_poi h) /\ h = with_dist lat lon (hit_poi h)
   /\ (dist h <= RADIUS)%R)
  /\ forall q, eligible uid now s q -> (sql_dist q lat lon <= RADIUS)%R ->
               (dist h <= sql_dist q lat lon)%R.
Proof.
  unfold nearest. rewrite head_sql_limit_1. intros H.
  apply (head_order_by_least dist_le dist_le_total dist_le_trans) in H.
  destruct H as [Hin Hle].
  apply filter_In in Hin. destruct Hin as [Hin Hr].
  apply bool_decide_eq_true in Hr.
  apply in_map_iff in Hin. destruct Hin as (p & <- & Hp).
  apply In_unvisited in Hp.
  split; [auto|].
  intros q Hq Hqr.
  specialize (Hle (with_dist lat lon q)).
  unfold dist_le in Hle. rewrite bool_decide_eq_true in Hle. apply Hle.
  apply filter_In. split.
  - apply in_map. apply In_unvisited. assumption.
  - apply bool_decide_eq_true. exact Hqr.
Qed.

Lemma nearest_none (uid : Z) (lat lon : R) (now : Z) (s : db) :
  nearest uid lat lon now s = None ->
  forall q, eligible uid now s q -> (RADIUS < sql_dist q lat lon)%R.
Proof.
  unfold nearest. rewrite head_sql_limit_1. intros H q Hq.
  apply head_order_by_None in H.
  destruct (Rlt_le_dec RADIUS (sql_dist q lat lon)) as [?|Hle]; [assumption|].
  exfalso.
  assert (Hin : In (with_dist lat lon q)
                   (List.filter (fun h => bool_decide (dist h <= RADIUS)%R)
                      (map (with_dist lat lon) (unvisited uid now s)))).
  { apply filter_In. split.
    - apply in_map. apply In_unvisited. assumption.
    - apply bool_decide_eq_true. exact Hle. }
  rewrite H in Hin. destruct Hin.
Qed.

(** C6 (amended). [nearest] (findAutoSurface) measures by the planar
    approximation [sql_dist] of its query, not in metres on the sphere:
    it returns nothing when no eligible POI has [sql_dist] at most
    [RADIUS] from the position, and otherwise one eligible POI within
    that bound whose [sql_dist] is least among them, with that distance
    ([dist], the distance column of the lookup). *)
Theorem nearest_is_nearest_within_radius (uid : Z) (lat lon : R) (now : Z) (s : db) :
  match nearest uid lat lon now s with
  | None => forall q, eligible uid now s q -> (RADIUS < sql_dist q lat lon)%R
  | Some h =>
      eligible uid now s (hit_poi h)
      /\ dist h = sql_dist (hit_poi h) lat lon
      /\ (dist h <= RADIUS)%R
      /\ forall q, eligible uid now s q -> (sql_dist q lat lon <= RADIUS)%R ->
                   (dist h <= sql_dist q lat lon)%R
  end.
Proof.
  destruct (nearest uid lat lon now s) as [h|] eqn:E.
  - destruct (nearest_row _ _ _ _ _ _ E) as [(He & Hd & Hr) Hmin].
    repeat split; try assumption.
    + apply He.
    + apply He.
    + rewrite Hd at 1. reflexivity.
  - apply nearest_none. assumption.
Qed.

Lemma sql_dist_east_poi : sql_dist east_poi 0 0 = 19.98%R.
Proof.
  unfold sql_dist, east_poi; cbn [poi_lat poi_lon].
  replace ((0 - 0) ^ 2 + ((0.0003 - 0) * 0.6) ^ 2)%R with (0.00018 ^ 2)%R by lra.
  rewrite sqrt_pow2 by lra. lra.
Qed.

Lemma haversine_east_poi : (31 < haversine 0 0 0 0.0003)%R.
Proof.
  rewrite haversine_equator by lra.
  unfold R_EARTH, radians. pose proof PI_gt_3. lra.
Qed.

(** C6 as claimed fails: for a user at the origin and the only POI on the
    equator 0.0003 degrees to the east, more than 31 m away and so
    outside the radius of 20 m, the lookup returns that POI, with the
    distance 19.98. *)
Lemma nearest_surfaces_beyond_radius :
  nearest 1 0 0 0 east_db = Some (with_dist 0 0 east_poi)
  /\ dist (with_dist 0 0 east_poi) = 19.98%R
  /\ (RADIUS < haversine 0 0 (poi_lat east_poi) (poi_lon east_poi))%R.
Proof.
  split; [|split].
  - destruct (nearest 1 0 0 0 east_db) as [h|] eqn:E.
    + destruct (nearest_row _ _ _ _ _ _ E) as [([Hin _] & Hh & _) _].
      destruct Hin as [Hp|[]]. rewrite Hh, <- Hp. reflexivity.
    + exfalso.
      assert (He : eligible 1 0 east_db east_poi).
      { split; [left; reflexivity|reflexivity]. }
      pose proof (nearest_none _ _ _ _ _ E east_poi He) as Hfar.
      rewrite sql_dist_east_poi in Hfar. unfold RADIUS in Hfar. lra.
  - cbn [with_dist dist]. apply sql_dist_east_poi.
  - cbn [east_poi poi_lat poi_lon]. pose proof haversine_east_poi.
    unfold RADIUS. lra.
Qed.

(** An eligible POI is a row of the ranking when the limit does not cut
    it off. *)
Lemma find_nearest_unvisited_complete (uid : Z) (lat lon : R) (limit now : Z) (s : db)
    (p : poi_row) :
  limit < 0 \/ Z.of_nat (length (poi s)) <= limit ->
  eligible uid now s p ->
  In (with_dist lat lon p) (find_nearest_unvisited uid lat lon limit now s).
Proof.
  intros Hlim He. unfold find_nearest_unvisited.
  rewrite sql_limit_unbounded.
  - apply In_order_by, in_map, In_unvisited. assumption.
  - destruct Hlim as [?|Hlim]; [left; assumption|right].
    rewrite length_order_by, length_map. unfold unvisited.
    pose proof (filter_length_le
      (fun p => negb (recently_visited (visit_log s) uid (revisit_limit now) p)) (poi s)).
    lia.
Qed.

Lemma nearest_some (uid : Z) (lat lon : R) (now : Z) (s : db) (p : poi_row) :
  eligible uid now s p -> (sql_dist p lat lon <= RADIUS)%R ->
  exists h, nearest uid lat lon now s = Some h /\ (dist h <= sql_dist p lat lon)%R.
Proof.
  intros He Hr. destruct (nearest uid lat lon now s) as [h|] eqn:E.
  - exists h. split; [reflexivity|]. apply (nearest_row _ _ _ _ _ _ E); assumption.
  - pose proof (nearest_none _ _ _ _ _ E p He). lra.
Qed.

(** C5. A POI that user [uid] visited at time [T] is in no result of
    [find_nearest_unvisited] and [nearest] for that user at a query time
    strictly before [T + REVISIT_HOURS]; when every visit of the user to
    it is at least [REVISIT_HOURS] old it is eligible again: it is ranked
    by [find_nearest_unvisited] (limit permitting) and, within the radius,
    [nearest] returns a POI at most as far. *)
Theorem cooldown_window (uid : Z) (lat lon : R) (limit now T : Z) (s : db) (p : poi_row) :
  In p (poi s) ->
  In {| visit_user := uid; visit_poi := poi_id p; visited_at := T |} (visit_log s) ->
  (now < T + REVISIT_HOURS * 3600 ->
     (forall h, In h (find_nearest_unvisited uid lat lon limit now s) ->
                poi_id (hit_poi h) <> poi_id p)
     /\ (forall h, nearest uid lat lon now s = Some h -> poi_id (hit_poi h) <> poi_id p))
  /\ ((forall v, In v (visit_log s) -> visit_user v = uid -> visit_poi v = poi_id p ->
                 visited_at v + REVISIT_HOURS * 3600 <= now) ->
      (limit < 0 \/ Z.of_nat (length (poi s)) <= limit ->
         In (with_dist lat lon p) (find_nearest_unvisited uid lat lon limit now s))
      /\ ((sql_dist p lat lon <= RADIUS)%R ->
          exists h, nearest uid lat lon now s = Some h
                    /\ (dist h <= sql_dist p lat lon)%R)).
Proof.
  intros Hp Hv. split.
  - intros Hnow.
    assert (Hex : forall q, poi_id q = poi_id p -> ~ eligible uid now s q).
    { intros q Hq [_ Hq'].
      assert (Ht : recently_visited (visit_log s) uid (revisit_limit now) q = true).
      { apply (recently_visited_true _ _ _ _ _ Hv); simpl; auto.
        unfold revisit_limit. lia. }
      congruence. }
    split; intros h Hh Hid; apply (Hex (hit_poi h) Hid).
    + apply (find_nearest_unvisited_rows _ _ _ _ _ _ _ Hh).
    + apply (nearest_row _ _ _ _ _ _ Hh).
  - intros Hold.
    assert (He : eligible uid now s p).
    { split; [assumption|]. apply recently_visited_false.
      intros v Hin Hu Hpv. specialize (Hold v Hin Hu Hpv).
      unfold revisit_limit. lia. }
    split.
    + intros Hlim. apply find_nearest_unvisited_complete; assumption.
    + intros Hr. apply nearest_some; assumption.
Qed.

(** The window on the demo catalogue: user 1 visited POI 1 at time 1000. *)
Lemma cooldown_window_demo :
  let first_hour := 1000 + 3600 in
  let day_after := 1000 + 86400 + 1 in
  (forall h, In h (find_nearest_unvisited 1 59.7161%R 30.3953%R 3 first_hour visited_db) ->
             poi_id (hit_poi h) <> 1)
  /\ In (with_dist 59.7161%R 30.3953%R kavalerskie)
        (find_nearest_unvisited 1 59.7161%R 30.3953%R 3 day_after visited_db).
Proof.
  cbv zeta. split.
  - apply (cooldown_window 1 59.7161%R 30.3953%R 3 (1000 + 3600) 1000 visited_db kavalerskie);
      [left; reflexivity | left; reflexivity | reflexivity].
  - apply (cooldown_window 1 59.7161%R 30.3953%R 3 (1000 + 86400 + 1) 1000 visited_db kavalerskie);
      [left; reflexivity | left; reflexivity | | right; simpl; lia].
    intros v [<-|[]] _ _. simpl. unfold REVISIT_HOURS. lia.
Defined.

(** *** The metric of the lookups *)

(** C4 (amended). The distance that the proximity lookups compute and
    return is the planar approximation [sql_dist] of the query,
    [111000 * sqrt (dlat^2 + (0.6 * dlon)^2)], for every row of
    [find_nearest_unvisited] and for the row of [nearest]. *)
Theorem proximity_dist_is_planar (uid : Z) (lat lon : R) (limit now : Z) (s : db) :
  Forall (fun h => In (hit_poi h) (poi s) /\ dist h = sql_dist (hit_poi h) lat lon)
         (find_nearest_unvisited uid lat lon limit now s)
  /\ match nearest uid lat lon now s with
     | Some h => In (hit_poi h) (poi s) /\ dist h = sql_dist (hit_poi h) lat lon
     | None => True
     end.
Proof.
  split.
  - apply List.Forall_forall. intros h Hh.
    destruct (find_nearest_unvisited_rows _ _ _ _ _ _ _ Hh) as [[Hin _] Hd].
    split; [assumption|]. rewrite Hd at 1. reflexivity.
  - destruct (nearest uid lat lon now s) as [h|] eqn:E; [|exact I].
    destruct (nearest_row _ _ _ _ _ _ E) as [([Hin _] & Hd & _) _].
    split; [assumption|]. rewrite Hd at 1. reflexivity.
Qed.

Lemma sql_dist_equator_poi : sql_dist equator_poi 0 0 = 6.66%R.
Proof.
  unfold sql_dist, equator_poi; cbn [poi_lat poi_lon].
  replace ((0 - 0) ^ 2 + ((0.0001 - 0) * 0.6) ^ 2)%R with (0.00006 ^ 2)%R by lra.
  rewrite sqrt_pow2 by lra. lra.
Qed.

Lemma haversine_equator_poi : (10 < haversine 0 0 0 0.0001)%R.
Proof.
  rewrite haversine_equator by lra.
  unfold R_EARTH, radians. pose proof PI_gt_3. lra.
Qed.

(** C4 as claimed fails: for a user at the origin and a POI on the
    equator 0.0001 degrees to the east the lookup returns 6.66 m, the
    haversine distance of the two points is more than 10 m. *)
Lemma proximity_dist_not_haversine :
  exists h, In h (find_nearest_unvisited 1 0 0 3 0 equator_db)
            /\ dist h <> haversine 0 0 (poi_lat (hit_poi h)) (poi_lon (hit_poi h)).
Proof.
  exists (with_dist 0 0 equator_poi). split.
  - left. reflexivity.
  - cbn [with_dist dist hit_poi]. rewrite sql_dist_equator_poi.
    cbn [equator_poi poi_lat poi_lon].
    pose proof haversine_equator_poi. lra.
Qed.

(** ** NavigationState: target selection *)

(** C10 (amended). Immediately after [set_navigation_target] the user's
    row is replaced wholesale: [last_lat] and [last_lon] are null whatever
    position was recorded before, the target is the new one and both flags
    are down; [last_update] is not null but the time of the call (the
    default of the column). Other users' rows and the other tables are
    untouched. *)
Theorem set_navigation_target_replaces_row (uid pid : Z) (now : Z) (s : db) :
  exists s', set_navigation_target uid pid now s = Done tt s' []
    /\ user_tracking s' !! uid =
         Some {| last_lat := None; last_lon := None; last_update := Some now;
                 target_poi_id := Some pid; notified_50m := false;
                 notified_arrived := false |}
    /\ (forall other, other <> uid -> user_tracking s' !! other = user_tracking s !! other)
    /\ poi s' = poi s /\ visit_log s' = visit_log s /\ user_stats s' = user_stats s.
Proof.
  eexists. split; [reflexivity|]. simpl.
  split; [apply lookup_insert_eq|].
  split; [|auto].
  intros other Hne. apply lookup_insert_ne. congruence.
Qed.

(** C10 as claimed fails on [last_update]: after a report at time 60 and
    a target set at time 120 the row carries the timestamp 120. *)
Lemma set_navigation_target_keeps_a_timestamp :
  let s := final_db (update_user_position 1 59.7161%R 30.3953%R 60 demo_db) in
  let s' := final_db (set_navigation_target 1 1 120 s) in
  last_lat <$> (user_tracking s !! 1) = Some (Some 59.7161%R)
  /\ exists r, user_tracking s' !! 1 = Some r
               /\ last_lat r = None /\ last_lon r = None
               /\ last_update r = Some 120 /\ last_update r <> None.
Proof.
  cbv zeta. split; [vm_compute; reflexivity|].
  eexists. split; [vm_compute; reflexivity|].
  simpl. repeat split; congruence.
Qed.

(** ** NavigationState and ProgressTracker: position reports *)

(** C1, on the code: a live report for a user with a target. The position
    update replaces the row, so the target is gone and the handler, finding
    none, offers a choice of targets instead of navigating. *)
Theorem report_erases_target :
  let s1 := final_db (set_navigation_target 1 1 0 demo_db) in
  let r := on_location (live_report 1 59.7161%R 30.3953%R) 60 s1 in
  target_poi_id <$> (user_tracking s1 !! 1) = Some (Some 1)
  /\ target_poi_id <$> (user_tracking (final_db r) !! 1) = Some None
  /\ output r = [ChooseTarget 1 [1]].
Proof.
  cbv zeta. split; [reflexivity|].
  split; vm_compute; reflexivity.
Qed.

Lemma distance_walked_insert_or_ignore (uid today : Z) (s : db) :
  exists r, user_stats (insert_or_ignore_stats uid today s) !! uid = Some r
            /\ total_distance r = distance_walked uid s.
Proof.
  unfold insert_or_ignore_stats, distance_walked.
  destruct (user_stats s !! uid) as [r|] eqn:E.
  - exists r. auto.
  - eexists. split; [apply lookup_insert_eq|reflexivity].
Qed.

(** A prior position with a non-zero latitude: the step adds the haversine
    distance, in kilometres, exactly when it exceeds 5 m. *)
Lemma update_user_position_adds (uid : Z) (lat lon : R) (now : Z) (s : db)
    (r : tracking_row) (la lo : R) :
  user_tracking s !! uid = Some r ->
  last_lat r = Some la -> la <> 0%R -> last_lon r = Some lo ->
  exists s', update_user_position uid lat lon now s = Done tt s' []
    /\ distance_walked uid s' =
         if decide (5 < haversine la lo lat lon)%R
         then (distance_walked uid s + haversine la lo lat lon / 1000)%R
         else distance_walked uid s.
Proof.
  intros Hr Hla Hnz Hlo.
  destruct (distance_walked_insert_or_ignore uid (date_of now) s) as (st & Hst & Htd).
  unfold update_user_position. unfold_m.
  rewrite tracking_insert_or_ignore_stats, Hr. simpl.
  rewrite Hla, Hlo. simpl.
  rewrite bool_decide_true by assumption.
  case_decide; simpl; eexists; (split; [reflexivity|]).
  - unfold distance_walked at 1. simpl.
    rewrite lookup_alter_eq, Hst. simpl. rewrite Htd. reflexivity.
  - unfold distance_walked at 1. simpl. rewrite Hst. assumption.
Qed.

(** A prior position whose latitude is zero is not seen as one: nothing
    is added, whatever the distance. *)
Lemma update_user_position_skips_zero_latitude (uid : Z) (lat lon : R) (now : Z) (s : db)
    (r : tracking_row) :
  user_tracking s !! uid = Some r -> last_lat r = Some 0%R ->
  exists s', update_user_position uid lat lon now s = Done tt s' []
    /\ distance_walked uid s' = distance_walked uid s.
Proof.
  intros Hr Hla.
  destruct (distance_walked_insert_or_ignore uid (date_of now) s) as (st & Hst & Htd).
  unfold update_user_position. unfold_m.
  rewrite tracking_insert_or_ignore_stats, Hr. simpl.
  rewrite Hla. simpl.
  rewrite bool_decide_false by (intros H; apply H; reflexivity).
  simpl. eexists. split; [reflexivity|].
  unfold distance_walked at 1. simpl. rewrite Hst. assumption.
Qed.

(** C7, on the code: a user whose prior position is on the equator moves
    one degree north, more than 5 m (in fact more than 100 km), and no
    distance is added. *)
Theorem equator_prior_position_adds_nothing :
  let s1 := final_db (update_user_position 1 0%R 30%R 0 demo_db) in
  let s2 := final_db (update_user_position 1 1%R 30%R 60 s1) in
  (last_lat <$> (user_tracking s1 !! 1) = Some (Some 0%R)
   /\ last_lon <$> (user_tracking s1 !! 1) = Some (Some 30%R))
  /\ (5 < haversine 0 30 1 30)%R
  /\ distance_walked 1 s2 = distance_walked 1 s1.
Proof.
  cbv zeta. split; [split; vm_compute; reflexivity|].
  split.
  - rewrite haversine_meridian by lra.
    unfold R_EARTH, radians. pose proof PI_gt_3. lra.
  - edestruct (update_user_position_skips_zero_latitude 1 1%R 30%R 60
                 (final_db (update_user_position 1 0%R 30%R 0 demo_db)))
      as (s' & Hs' & Hd).
    + vm_compute. reflexivity.
    + reflexivity.
    + rewrite Hs'. exact Hd.
Qed.

(** ** The visit ledger: [mark_visit] *)

(** [update_visit_stats] as [mark_visit] calls it: its first statement
    finds the database locked. *)
Lemma update_visit_stats_locked (uid now : Z) (s : db) :
  update_visit_stats true uid now s = Raised OperationalError s [].
Proof. reflexivity. Qed.

(** So [mark_visit] raises, and its [INSERT] is rolled back. *)
Lemma mark_visit_locked (uid pid now : Z) (s : db) :
  mark_visit uid pid now s = Raised OperationalError s [].
Proof. reflexivity. Qed.

(** [show_poi_info] sends the card and raises; without a message it does
    nothing. *)
Lemma show_poi_info_run (why : card_origin) (u : update) (p : poi_row) (d : R) (now : Z)
    (s : db) :
  show_poi_info why u p d now s =
  if has_message u then
    Raised OperationalError s
      [PoiCard why (upd_user u) (poi_id p) d
         (poi_id ∘ hit_poi <$>
            head (find_nearest_unvisited (upd_user u) (poi_lat p) (poi_lon p) 2 now s))]
  else Done tt s [].
Proof. unfold show_poi_info. destruct (has_message u); reflexivity. Qed.

(** C8. The favourite is never recomputed, because no visit is ever
    recorded: [mark_visit] inserts the visit and then calls
    [update_visit_stats], whose first statement, on a connection of its
    own, finds the database locked by that insertion; the call raises,
    the insertion is rolled back, and the ledger, the visit counts and the
    statistics (the favourite with them) are what they were. *)
Theorem favorite_is_never_recomputed (uid pid now : Z) (s : db) :
  mark_visit uid pid now s = Raised OperationalError s []
  /\ visit_log (final_db (mark_visit uid pid now s)) = visit_log s
  /\ (forall q, visit_count uid q (visit_log (final_db (mark_visit uid pid now s)))
                = visit_count uid q (visit_log s))
  /\ user_stats (final_db (mark_visit uid pid now s)) = user_stats s.
Proof. repeat split. Qed.

(** ** Effects of the handlers on the navigation table *)

Lemma final_db_bind {A B : Type} (m : M A) (f : A -> M B) (s : db) :
  final_db ((m ≫= f) s) =
  match m s with
  | Done a s1 _ => final_db (f a s1)
  | Raised _ s1 _ => s1
  end.
Proof.
  unfold mbind, M_bind. destruct (m s) as [a s1 o1|e s1 o1]; [|reflexivity].
  destruct (f a s1); reflexivity.
Qed.

Lemma output_bind {A B : Type} (m : M A) (f : A -> M B) (s : db) :
  output ((m ≫= f) s) =
  match m s with
  | Done a s1 o1 => o1 ++ output (f a s1)
  | Raised _ _ o1 => o1
  end.
Proof.
  unfold mbind, M_bind. destruct (m s) as [a s1 o1|e s1 o1]; [|reflexivity].
  destruct (f a s1); reflexivity.
Qed.

Lemma offer_targets_idle (uid : Z) (lat lon : R) (now : Z) (s : db) :
  live_outcome uid (user_tracking s) (offer_targets uid lat lon now s).
Proof.
  unfold offer_targets. unfold_m.
  destruct (find_nearest_unvisited uid lat lon 3 now s); simpl;
    apply LiveIdle; simpl; auto.
Qed.

Lemma navigate_outcome (u : update) (track : tracking_row) (target : Z) (lat lon : R)
    (now : Z) (s : db) :
  user_tracking s !! upd_user u = Some track ->
  int_truthy (target_poi_id track) = true ->
  live_outcome (upd_user u) (user_tracking s) (navigate u track target lat lon now s).
Proof.
  intros Hrow Htarget. unfold navigate.
  unfold mbind at 1, M_bind at 1, gets at 1.
  destruct (get_poi_by_id target s) as [p|].
  2: { apply LiveIdle; simpl; auto. }
  set (d := haversine lat lon (poi_lat p) (poi_lon p)).
  case_decide.
  - destruct (notified_arrived track) eqn:Harr.
    + apply LiveIdle; simpl; auto.
    + unfold mbind, M_bind. rewrite show_poi_info_run.
      destruct (has_message u); simpl.
      * apply (LiveCard _ _ _ track); simpl; auto.
      * apply (LiveArrived _ _ _ track); simpl; auto.
  - case_decide.
    + destruct (notified_50m track) eqn:Hnear.
      * apply LiveIdle; simpl; auto.
      * unfold_m. simpl.
        apply (LiveNear _ _ _ track); simpl; auto.
        -- intros w. unfold count_events. simpl. split; [reflexivity|].
           destruct (upd_user u =? w); simpl; lia.
        -- intros w Hw. unfold count_events. simpl.
           destruct (Z.eqb_spec (upd_user u) w); [congruence|reflexivity].
    + unfold emit. apply LiveIdle; simpl; auto.
Qed.

Lemma handle_live_location_outcome (u : update) (lat lon : R) (now : Z) (s : db) :
  live_outcome (upd_user u) (user_tracking s) (handle_live_location u lat lon now s).
Proof.
  unfold handle_live_location.
  unfold mbind at 1, M_bind at 1, gets at 1.
  destruct (user_tracking s !! upd_user u) as [track|] eqn:Hrow.
  - destruct (int_truthy (target_poi_id track)) eqn:Htarget.
    + pose proof (navigate_outcome u track (default 0 (target_poi_id track))
                    lat lon now s Hrow Htarget) as H.
      destruct (navigate u track (default 0 (target_poi_id track)) lat lon now s);
        simpl; exact H.
    + pose proof (offer_targets_idle (upd_user u) lat lon now s) as H.
      destruct (offer_targets (upd_user u) lat lon now s); simpl; exact H.
  - pose proof (offer_targets_idle (upd_user u) lat lon now s) as H.
    destruct (offer_targets (upd_user u) lat lon now s); simpl; exact H.
Qed.

Lemma show_nearest_poi_outcome (u : update) (lat lon : R) (now : Z) (s : db) :
  live_outcome (upd_user u) (user_tracking s) (show_nearest_poi u lat lon now s).
Proof.
  unfold show_nearest_poi.
  unfold mbind at 1, M_bind at 1, gets at 1.
  destruct (nearest (upd_user u) lat lon now s) as [h|].
  - rewrite show_poi_info_run.
    destruct (has_message u); apply LiveIdle; simpl; auto.
  - apply LiveIdle; simpl; auto.
Qed.

(** A report through [on_location] leaves the navigation table as it was
    (no location, or the position update raised) or with the user's row
    replaced by a [position_row]; it sends no navigation event. *)
Lemma on_location_outcome (u : update) (now : Z) (s : db) :
  (user_tracking (final_db (on_location u now s)) = user_tracking s
   \/ exists lat lon,
        user_tracking (final_db (on_location u now s)) =
        <[upd_user u := position_row lat lon now]> (user_tracking s))
  /\ forall w, count_events (is_arrived w) (output (on_location u now s)) = 0%nat
               /\ count_events (is_near w) (output (on_location u now s)) = 0%nat.
Proof.
  unfold on_location. destruct (upd_loc u) as [[lat lon]|]; [|simpl; auto].
  rewrite final_db_bind, output_bind.
  pose proof (update_user_position_effect (upd_user u) lat lon now s) as Hup.
  destruct (update_user_position (upd_user u) lat lon now s) as [[] s1 o1|e s1 o1].
  2: { destruct Hup as [-> ->]. simpl. auto. }
  destruct Hup as (Ht & _ & _ & ->). simpl.
  set (k := if is_live u then handle_live_location u lat lon now
            else show_nearest_poi u lat lon now).
  assert (Hk : live_outcome (upd_user u) (user_tracking s1) (k s1)).
  { subst k. destruct (is_live u);
      [apply handle_live_location_outcome | apply show_nearest_poi_outcome]. }
  destruct Hk as [Hsame Hcount|track Hrow Htarget _ _|track Hrow Htarget _ _ _
                  |track Hrow Htarget _ _ _ _].
  - split; [|exact Hcount]. right. exists lat, lon. rewrite Hsame. exact Ht.
  - rewrite Ht, lookup_insert_eq in Hrow. injection Hrow as <-. discriminate.
  - rewrite Ht, lookup_insert_eq in Hrow. injection Hrow as <-. discriminate.
  - rewrite Ht, lookup_insert_eq in Hrow. injection Hrow as <-. discriminate.
Qed.









(** ** The invariant of the navigation row *)





(** *** [handle_live_location] called on its own

    The branches below are not reached through [on_location], whose
    position update has erased the target before [handle_live_location]
    reads it; they are what the function does when it is handed a row
    with a target. *)

Lemma handle_live_location_near (u : update) (lat lon : R) (now : Z) (s : db)
    (track : tracking_row) (t : Z) (p : poi_row) :
  user_tracking s !! upd_user u = Some track ->
  target_poi_id track = Some t -> t <> 0 ->
  get_poi_by_id t s = Some p ->
  (RADIUS < haversine lat lon (poi_lat p) (poi_lon p) <= 50)%R ->
  handle_live_location u lat lon now s =
  if notified_50m track then Done tt s []
  else Done tt (set_tracking (alter set_notified_50m (upd_user u)) s)
         [NavNear (upd_user u) (poi_id p) (haversine lat lon (poi_lat p) (poi_lon p))].
Proof.
  intros Hrow Ht Hnz Hp [Hfar Hnear].
  unfold handle_live_location, navigate. unfold_m.
  rewrite Hrow, Ht. simpl.
  apply Z.eqb_neq in Hnz. rewrite Hnz. simpl. rewrite Hp.
  rewrite decide_False by lra. rewrite decide_True by assumption.
  destruct (notified_50m track); reflexivity.
Qed.

(** The arrival branch: with a message the card is sent and the call
    raises, the row being as before, so that the next call sends the card
    again; without a message no card is sent, the target is cleared and
    the arrived flag raised. *)
Lemma handle_live_location_arrival (u : update) (lat lon : R) (now : Z) (s : db)
    (track : tracking_row) (t : Z) (p : poi_row) :
  user_tracking s !! upd_user u = Some track ->
  target_poi_id track = Some t -> t <> 0 ->
  get_poi_by_id t s = Some p ->
  (haversine lat lon (poi_lat p) (poi_lon p) <= RADIUS)%R ->
  notified_arrived track = false ->
  handle_live_location u lat lon now s =
  if has_message u then
    Raised OperationalError s
      [PoiCard Arrived (upd_user u) (poi_id p) (haversine lat lon (poi_lat p) (poi_lon p))
         (poi_id ∘ hit_poi <$>
            head (find_nearest_unvisited (upd_user u) (poi_lat p) (poi_lon p) 2 now s))]
  else
    Done tt (set_tracking (alter set_notified_arrived (upd_user u))
               (set_tracking (alter cleared (upd_user u)) s)) [].
Proof.
  intros Hrow Ht Hnz Hp Hd Harr.
  unfold handle_live_location, navigate.
  unfold mbind at 1, M_bind at 1, gets at 1. rewrite Hrow, Ht. simpl.
  apply Z.eqb_neq in Hnz. rewrite Hnz. simpl.
  unfold mbind at 1, M_bind at 1, gets at 1. rewrite Hp.
  rewrite decide_True by assumption. rewrite Harr.
  unfold mbind, M_bind. rewrite show_poi_info_run.
  destruct (has_message u); reflexivity.
Qed.

(** In the near zone (33 m south of the target) the first live update
    sends the near event and the second sends nothing. *)
Example near_event_fires_once :
  let u := live_report 1 59.71588%R 30.39530%R in
  let ops := [(LiveLocation u 59.71588%R 30.39530%R, 10);
              (LiveLocation u 59.71588%R 30.39530%R, 20)] in
  count_events (is_near 1)
    (snd (run ops (final_db (set_navigation_target 1 1 0 demo_db)))) = 1%nat.
Proof.
  cbv zeta.
  assert (Hd : (RADIUS < haversine 59.71588 30.39530 59.71618 30.39530 <= 50)%R).
  { rewrite haversine_meridian by lra.
    unfold R_EARTH, radians, RADIUS. pose proof PI_gt_3. pose proof PI_4. split; lra. }
  unfold run, step.
  rewrite (handle_live_location_near (live_report 1 59.71588%R 30.39530%R)
             _ _ 10 (final_db (set_navigation_target 1 1 0 demo_db))
             (target_row 1 0) 1 kavalerskie);
    [|reflexivity|reflexivity|lia|reflexivity|exact Hd].
  cbn [target_row notified_50m final_db output].
  rewrite (handle_live_location_near (live_report 1 59.71588%R 30.39530%R)
             _ _ 20 _ (set_notified_50m (target_row 1 0)) 1 kavalerskie);
    [|vm_compute; reflexivity|reflexivity|lia|reflexivity|exact Hd].
  reflexivity.
Qed.

(** ** ProgressTracker: the distance walked *)

(** The scenario of the specification: from a first position, a report
    3 m to the north adds nothing to the distance walked, a report 10 m to
    the north adds about 0.01 km. *)
Example noise_floor_scenario :
  let s0 := final_db (update_user_position 1 59.71610%R 30.3953%R 0 demo_db) in
  let s3 := final_db (update_user_position 1 59.716127%R 30.3953%R 10 s0) in
  let s10 := final_db (update_user_position 1 59.71619%R 30.3953%R 10 s0) in
  distance_walked 1 s0 = 0%R
  /\ distance_walked 1 s3 = 0%R
  /\ (0.009 < distance_walked 1 s10 < 0.013)%R.
Proof.
  cbv zeta.
  set (s0 := final_db (update_user_position 1 59.71610%R 30.3953%R 0 demo_db)).
  assert (Hrow : user_tracking s0 !! 1 = Some (position_row 59.71610%R 30.3953%R 0))
    by (vm_compute; reflexivity).
  assert (H0 : distance_walked 1 s0 = 0%R) by (vm_compute; reflexivity).
  pose proof PI_gt_3 as Hpi3. pose proof PI_4 as Hpi4.
  split; [exact H0|]. split.
  - destruct (update_user_position_adds 1 59.716127%R 30.3953%R 10 s0 _
                59.71610%R 30.3953%R Hrow eq_refl) as (s' & -> & Hd);
      [lra|reflexivity|].
    simpl. rewrite Hd, H0.
    rewrite haversine_meridian by lra.
    rewrite decide_False; [reflexivity|].
    unfold R_EARTH, radians. lra.
  - destruct (update_user_position_adds 1 59.71619%R 30.3953%R 10 s0 _
                59.71610%R 30.3953%R Hrow eq_refl) as (s' & -> & Hd);
      [lra|reflexivity|].
    simpl. rewrite Hd, H0.
    rewrite haversine_meridian by lra.
    rewrite decide_True by (unfold R_EARTH, radians; lra).
    unfold R_EARTH, radians. split; lra.
Qed.

(** ** Reports that are not live updates *)

Lemma unvisited_ext (uid now : Z) (s s' : db) :
  poi s' = poi s -> visit_log s' = visit_log s ->
  unvisited uid now s' = unvisited uid now s.
Proof. unfold unvisited. intros -> ->. reflexivity. Qed.

Lemma nearest_ext (uid : Z) (lat lon : R) (now : Z) (s s' : db) :
  poi s' = poi s -> visit_log s' = visit_log s ->
  nearest uid lat lon now s' = nearest uid lat lon now s.
Proof. intros Hp Hl. unfold nearest. rewrite (unvisited_ext _ _ _ _ Hp Hl). reflexivity. Qed.

Lemma find_nearest_unvisited_ext (uid : Z) (lat lon : R) (limit now : Z) (s s' : db) :
  poi s' = poi s -> visit_log s' = visit_log s ->
  find_nearest_unvisited uid lat lon limit now s'
  = find_nearest_unvisited uid lat lon limit now s.
Proof.
  intros Hp Hl. unfold find_nearest_unvisited.
  rewrite (unvisited_ext _ _ _ _ Hp Hl). reflexivity.
Qed.

(** The position update returns whenever the stored longitude is there
    for a stored latitude (which is how every statement writes the row). *)
Lemma update_user_position_done (uid : Z) (lat lon : R) (now : Z) (s : db) :
  (forall r, user_tracking s !! uid = Some r -> is_Some (last_lat r) -> is_Some (last_lon r)) ->
  exists s1, update_user_position uid lat lon now s = Done tt s1 []
    /\ user_tracking s1 = <[uid := position_row lat lon now]> (user_tracking s)
    /\ poi s1 = poi s /\ visit_log s1 = visit_log s.
Proof.
  intros Hwf.
  pose proof (update_user_position_effect uid lat lon now s) as Heff.
  destruct (update_user_position uid lat lon now s) as [[] s1 out|e s1 out] eqn:E.
  - destruct Heff as (Ht & Hp & Hl & ->). eauto.
  - exfalso. revert E. unfold update_user_position. unfold_m.
    rewrite tracking_insert_or_ignore_stats.
    destruct (user_tracking s !! uid) as [r|] eqn:Hr; simpl; [|discriminate].
    specialize (Hwf r eq_refl).
    destruct (last_lat r) as [la|]; simpl; [|discriminate].
    destruct Hwf as [lo ->]; [eauto|].
    destruct (bool_decide (la <> 0%R)); simpl; [|discriminate].
    case_decide; discriminate.
Qed.

Lemma on_location_fresh (uid : Z) (lat lon : R) (now : Z) (s : db) :
  (forall r, user_tracking s !! uid = Some r -> is_Some (last_lat r) -> is_Some (last_lon r)) ->
  exists s1, user_tracking s1 = <[uid := position_row lat lon now]> (user_tracking s)
    /\ poi s1 = poi s /\ visit_log s1 = visit_log s
    /\ on_location (fresh_report uid lat lon) now s
       = show_nearest_poi (fresh_report uid lat lon) lat lon now s1.
Proof.
  intros Hwf.
  destruct (update_user_position_done uid lat lon now s Hwf) as (s1 & Hrun & Ht & Hp & Hl).
  exists s1. repeat split; try assumption.
  unfold on_location. simpl. unfold mbind, M_bind. rewrite Hrun.
  destruct (show_nearest_poi (fresh_report uid lat lon) lat lon now s1); reflexivity.
Qed.

Lemma show_nearest_poi_none (u : update) (lat lon : R) (now : Z) (s : db) :
  nearest (upd_user u) lat lon now s = None ->
  show_nearest_poi u lat lon now s = Done tt s [NoNearbyPoi (upd_user u)].
Proof. intros H. unfold show_nearest_poi. unfold_m. rewrite H. reflexivity. Qed.

Lemma show_nearest_poi_card (u : update) (lat lon : R) (now : Z) (s : db) (h : hit) :
  nearest (upd_user u) lat lon now s = Some h ->
  has_message u = true ->
  show_nearest_poi u lat lon now s =
  Raised OperationalError s
    [PoiCard Surfaced (upd_user u) (poi_id (hit_poi h))
       (haversine lat lon (poi_lat (hit_poi h)) (poi_lon (hit_poi h)))
       (poi_id ∘ hit_poi <$>
          head (find_nearest_unvisited (upd_user u) (poi_lat (hit_poi h))
                  (poi_lon (hit_poi h)) 2 now s))].
Proof.
  intros Hn Hmsg. unfold show_nearest_poi.
  unfold mbind, M_bind, gets. rewrite Hn, show_poi_info_run, Hmsg. reflexivity.
Qed.

(** The lookups on a catalogue of one entry. *)
Lemma unvisited_single (uid now : Z) (s : db) (p : poi_row) :
  poi s = [p] ->
  unvisited uid now s =
  if recently_visited (visit_log s) uid (revisit_limit now) p then [] else [p].
Proof.
  intros Hp. unfold unvisited. rewrite Hp. simpl.
  destruct (recently_visited (visit_log s) uid (revisit_limit now) p); reflexivity.
Qed.

Lemma nearest_single (uid : Z) (lat lon : R) (now : Z) (s : db) (p : poi_row) :
  poi s = [p] ->
  nearest uid lat lon now s =
  if recently_visited (visit_log s) uid (revisit_limit now) p then None
  else if decide (sql_dist p lat lon <= RADIUS)%R then Some (with_dist lat lon p)
  else None.
Proof.
  intros Hp. unfold nearest. rewrite (unvisited_single _ _ _ _ Hp).
  destruct (recently_visited (visit_log s) uid (revisit_limit now) p); [reflexivity|].
  simpl. rewrite bool_decide_decide.
  destruct (decide (sql_dist p lat lon <= RADIUS)%R); reflexivity.
Qed.

Lemma find_nearest_unvisited_single (uid : Z) (lat lon : R) (limit now : Z) (s : db)
    (p : poi_row) :
  poi s = [p] -> 1 <= limit ->
  find_nearest_unvisited uid lat lon limit now s =
  if recently_visited (visit_log s) uid (revisit_limit now) p then []
  else [with_dist lat lon p].
Proof.
  intros Hp Hlim. unfold find_nearest_unvisited. rewrite (unvisited_single _ _ _ _ Hp).
  destruct (recently_visited (visit_log s) uid (revisit_limit now) p); simpl.
  - unfold sql_limit. destruct (limit <? 0); [reflexivity|]. apply firstn_nil.
  - apply sql_limit_unbounded. right. simpl. lia.
Qed.

Lemma sql_dist_kavalerskie : sql_dist kavalerskie 59.7161 30.39530 = 8.88%R.
Proof.
  unfold sql_dist, kavalerskie; cbn [poi_lat poi_lon].
  replace ((59.71618 - 59.7161) ^ 2 + ((30.39530 - 30.39530) * 0.6) ^ 2)%R
    with (0.00008 ^ 2)%R by lra.
  rewrite sqrt_pow2 by lra. lra.
Qed.

(** A user some 9 m south of the POI of the demo catalogue sends a
    location and gets its card; the handler then raises, no visit is
    recorded, and the same report a minute later gets the card again. *)
Example card_is_sent_again :
  let u := fresh_report 1 59.7161%R 30.39530%R in
  let d := haversine 59.7161 30.39530 59.71618 30.39530 in
  snd (run [(Location u, 0); (Location u, 60)] demo_db)
  = [PoiCard Surfaced 1 1 d (Some 1); PoiCard Surfaced 1 1 d (Some 1)]
  /\ visit_log (fst (run [(Location u, 0); (Location u, 60)] demo_db)) = []
  /\ (8 < d < 12)%R.
Proof.
  cbv zeta.
  assert (Hrun : exists s3,
            run [(Location (fresh_report 1 59.7161%R 30.39530%R), 0);
                 (Location (fresh_report 1 59.7161%R 30.39530%R), 60)] demo_db
            = (s3, [PoiCard Surfaced 1 1 (haversine 59.7161 30.39530 59.71618 30.39530)
                      (Some 1);
                    PoiCard Surfaced 1 1 (haversine 59.7161 30.39530 59.71618 30.39530)
                      (Some 1)])
            /\ visit_log s3 = []).
  { unfold run, step.
    destruct (on_location_fresh 1 59.7161%R 30.39530%R 0 demo_db)
      as (s1 & Ht1 & Hp1 & Hl1 & ->).
    { intros r. simpl. rewrite lookup_empty. discriminate. }
    assert (Hn1 : nearest 1 59.7161 30.39530 0 s1
                  = Some (with_dist 59.7161%R 30.39530%R kavalerskie)).
    { rewrite (nearest_single _ _ _ _ _ kavalerskie Hp1), Hl1. simpl.
      rewrite decide_True; [reflexivity|].
      rewrite sql_dist_kavalerskie. unfold RADIUS. lra. }
    rewrite (show_nearest_poi_card (fresh_report 1 59.7161%R 30.39530%R)
               59.7161%R 30.39530%R 0 s1 _ Hn1 eq_refl).
    cbn [final_db output upd_user fresh_report with_dist hit_poi].
    rewrite (find_nearest_unvisited_single _ _ _ _ _ _ kavalerskie Hp1) by lia.
    rewrite Hl1. cbn [recently_visited existsb visit_log demo_db head fmap option_fmap
                      option_map].
    destruct (on_location_fresh 1 59.7161%R 30.39530%R 60 s1)
      as (s3 & Ht3 & Hp3 & Hl3 & ->).
    { intros r. rewrite Ht1, lookup_insert_eq. intros [= <-] _. simpl. eauto. }
    assert (Hn3 : nearest 1 59.7161 30.39530 60 s3
                  = Some (with_dist 59.7161%R 30.39530%R kavalerskie)).
    { rewrite (nearest_single _ _ _ _ _ kavalerskie) by (rewrite Hp3, Hp1; reflexivity).
      rewrite Hl3, Hl1. simpl.
      rewrite decide_True; [reflexivity|].
      rewrite sql_dist_kavalerskie. unfold RADIUS. lra. }
    rewrite (show_nearest_poi_card (fresh_report 1 59.7161%R 30.39530%R)
               59.7161%R 30.39530%R 60 s3 _ Hn3 eq_refl).
    cbn [final_db output upd_user fresh_report with_dist hit_poi].
    rewrite (find_nearest_unvisited_single _ _ _ _ _ _ kavalerskie)
      by (rewrite ?Hp3, ?Hp1; first [reflexivity|lia]).
    rewrite Hl3, Hl1. cbn [recently_visited existsb visit_log demo_db head fmap option_fmap
                           option_map].
    exists s3. split; [reflexivity|]. rewrite Hl3, Hl1. reflexivity. }
  destruct Hrun as (s3 & -> & Hlog). split; [reflexivity|]. split; [exact Hlog|].
  rewrite haversine_meridian by lra.
  unfold R_EARTH, radians. pose proof PI_gt_3. pose proof PI_4. split; lra.
Qed.

(** * Further properties of the code *)

(** ** ORDER BY: the sorted result *)

Section OrderBySorted.
Context {A : Type} (le : A -> A -> bool).
Hypothesis le_total : forall x y, le x y = true \/ le y x = true.
Hypothesis le_trans : forall x y z, le x y = true -> le y z = true -> le x z = true.

Lemma insert_by_sorted (x : A) (l : list A) :
  StronglySorted (fun a b => le a b = true) l ->
  StronglySorted (fun a b => le a b = true) (insert_by le x l).
Proof.
  induction 1 as [|y l Hs IH Hall]; simpl.
  - repeat constructor.
  - destruct (le x y) eqn:Hxy.
    + constructor; [constructor; assumption|].
      constructor; [assumption|].
      eapply List.Forall_impl; [|exact Hall]. intros z Hz. eauto.
    + constructor; [assumption|].
      apply List.Forall_forall. intros z Hz. apply In_insert_by in Hz.
      destruct Hz as [->|Hz].
      * destruct (le_total y x); [assumption|congruence].
      * rewrite List.Forall_forall in Hall. auto.
Qed.

Lemma order_by_sorted (l : list A) :
  StronglySorted (fun a b => le a b = true) (order_by le l).
Proof.
  induction l as [|x l IH]; simpl; [constructor|].
  apply insert_by_sorted. assumption.
Qed.

Lemma sorted_firstn (n : nat) (l : list A) :
  StronglySorted (fun a b => le a b = true) l ->
  StronglySorted (fun a b => le a b = true) (firstn n l).
Proof.
  intros Hs. revert n. induction Hs as [|y l Hs IH Hall]; intros [|n]; simpl;
    try constructor; auto.
  apply List.Forall_forall. intros z Hz.
  rewrite List.Forall_forall in Hall. apply Hall.
  rewrite <- (firstn_skipn n l). apply in_or_app. auto.
Qed.

Lemma sorted_firstn_skipn (n : nat) (l : list A) (x y : A) :
  StronglySorted (fun a b => le a b = true) l ->
  In x (firstn n l) -> In y (skipn n l) -> le x y = true.
Proof.
  intros Hs. revert n. induction Hs as [|z l Hs IH Hall]; intros [|n]; simpl;
    try tauto.
  intros [<-|Hx] Hy.
  - rewrite List.Forall_forall in Hall. apply Hall.
    rewrite <- (firstn_skipn n l). apply in_or_app. auto.
  - eauto.
Qed.
End OrderBySorted.

Lemma sql_limit_sorted {A : Type} (le : A -> A -> bool) (n : Z) (l : list A) :
  StronglySorted (fun a b => le a b = true) l ->
  StronglySorted (fun a b => le a b = true) (sql_limit n l).
Proof.
  intros Hs. unfold sql_limit. destruct (n <? 0); [assumption|].
  apply sorted_firstn. assumption.
Qed.

(** The rows that [LIMIT] leaves out stand after every row it keeps. *)
Lemma sql_limit_cut {A : Type} (le : A -> A -> bool) (n : Z) (l : list A) (x y : A) :
  StronglySorted (fun a b => le a b = true) l ->
  (forall a, le a a = true) ->
  In x (sql_limit n l) -> In y l -> In y (sql_limit n l) \/ le x y = true.
Proof.
  intros Hs Hrefl Hx Hy. unfold sql_limit in *.
  destruct (n <? 0); [auto|].
  rewrite <- (firstn_skipn (Z.to_nat n) l) in Hy. apply in_app_or in Hy.
  destruct Hy as [Hy|Hy]; [auto|right].
  eapply sorted_firstn_skipn; eassumption.
Qed.

(** ** ProximityFinder: the ranking *)

(** X1. [find_nearest_unvisited] returns its rows in ascending order of
    [dist], never more rows than the catalogue has and, for a limit that
    is not negative, never more than the limit. *)
Theorem find_nearest_unvisited_ascending (uid : Z) (lat lon : R) (limit now : Z) (s : db) :
  StronglySorted (fun h1 h2 => (dist h1 <= dist h2)%R)
                 (find_nearest_unvisited uid lat lon limit now s)
  /\ (length (find_nearest_unvisited uid lat lon limit now s) <= length (poi s))%nat
  /\ (0 <= limit ->
      Z.of_nat (length (find_nearest_unvisited uid lat lon limit now s)) <= limit).
Proof.
  unfold find_nearest_unvisited.
  set (rows := map (with_dist lat lon) (unvisited uid now s)).
  assert (Hsorted : StronglySorted (fun a b => dist_le a b = true)
                      (sql_limit limit (order_by dist_le rows))).
  { apply sql_limit_sorted, order_by_sorted; [apply dist_le_total|apply dist_le_trans]. }
  split; [|split].
  - eapply StronglySorted_ind with (P := StronglySorted (fun h1 h2 => (dist h1 <= dist h2)%R));
      [constructor| |exact Hsorted].
    intros a l _ IH Hall. constructor; [assumption|].
    eapply List.Forall_impl; [|exact Hall].
    intros b Hb. unfold dist_le in Hb. apply bool_decide_eq_true in Hb. exact Hb.
  - assert (Hlen : (length (order_by dist_le rows) <= length (poi s))%nat).
    { rewrite length_order_by. subst rows. rewrite length_map. unfold unvisited.
      apply filter_length_le. }
    unfold sql_limit. destruct (limit <? 0); [assumption|].
    rewrite length_firstn. lia.
  - apply length_sql_limit.
Qed.

(** X2. The rows are the nearest ones: an eligible POI that is not among
    the rows of [find_nearest_unvisited] is at least as far (in the
    [dist] of the query) as every row returned. *)
Theorem find_nearest_unvisited_nearest (uid : Z) (lat lon : R) (limit now : Z) (s : db)
    (h : hit) (q : poi_row) :
  In h (find_nearest_unvisited uid lat lon limit now s) ->
  eligible uid now s q ->
  In (with_dist lat lon q) (find_nearest_unvisited uid lat lon limit now s)
  \/ (dist h <= sql_dist q lat lon)%R.
Proof.
  unfold find_nearest_unvisited. intros Hh Hq.
  destruct (sql_limit_cut dist_le limit
              (order_by dist_le (map (with_dist lat lon) (unvisited uid now s)))
              h (with_dist lat lon q)) as [?|Hle]; auto.
  - apply order_by_sorted; [apply dist_le_total|apply dist_le_trans].
  - intros a. destruct (dist_le_total a a); assumption.
  - apply In_order_by, in_map, In_unvisited. assumption.
  - right. unfold dist_le in Hle. apply bool_decide_eq_true in Hle. exact Hle.
Qed.

(** Two places, the nearest one is asked for: the palace is left out and
    is no nearer than the row returned. *)
Lemma find_nearest_unvisited_nearest_demo :
  In (with_dist 59.7161%R 30.39530%R palace)
     (find_nearest_unvisited 1 59.7161%R 30.39530%R 1 0 two_poi_db)
  \/ (dist (with_dist 59.7161%R 30.39530%R kavalerskie)
      <= sql_dist palace 59.7161%R 30.39530%R)%R.
Proof.
  apply (find_nearest_unvisited_nearest 1 59.7161%R 30.39530%R 1 0 two_poi_db
           (with_dist 59.7161%R 30.39530%R kavalerskie) palace).
  - unfold find_nearest_unvisited, two_poi_db, unvisited. simpl.
    assert (Hle : dist_le (with_dist 59.7161%R 30.39530%R kavalerskie)
                    (with_dist 59.7161%R 30.39530%R palace) = true).
    { unfold dist_le. apply bool_decide_eq_true. simpl. unfold sql_dist. simpl.
      apply Rmult_le_compat_l; [lra|]. apply sqrt_le_1_alt. nra. }
    rewrite Hle. left. reflexivity.
  - split; [right; left; reflexivity|reflexivity].
Defined.

Lemma recently_visited_snoc_other (log : list visit_row) (uid limit : Z) (p : poi_row)
    (v : visit_row) :
  visit_user v <> uid ->
  recently_visited (log ++ [v]) uid limit p = recently_visited log uid limit p.
Proof.
  intros Hne. unfold recently_visited. rewrite existsb_app. simpl.
  apply Z.eqb_neq in Hne. rewrite Hne. simpl. apply orb_false_r.
Qed.

(** A ledger row of another user, however it got there, changes neither
    lookup. *)
Lemma rows_of_others_do_not_hide (uid : Z) (lat lon : R) (limit now : Z) (s : db)
    (v : visit_row) :
  visit_user v <> uid ->
  nearest uid lat lon now (set_visit_log (fun log => log ++ [v]) s)
  = nearest uid lat lon now s
  /\ find_nearest_unvisited uid lat lon limit now (set_visit_log (fun log => log ++ [v]) s)
     = find_nearest_unvisited uid lat lon limit now s.
Proof.
  intros Hne.
  assert (Hu : unvisited uid now (set_visit_log (fun log => log ++ [v]) s)
               = unvisited uid now s).
  { unfold unvisited. simpl. apply List.filter_ext. intros p.
    rewrite recently_visited_snoc_other by assumption. reflexivity. }
  unfold nearest, find_nearest_unvisited. rewrite Hu. auto.
Qed.



(** ** Catalogue import *)

Lemma same_place_spec (r : csv_row) (p : poi_row) :
  same_place r p = true <-> (csv_name r, csv_lat r, csv_lon r) = place_of p.
Proof.
  unfold same_place, place_of.
  rewrite !andb_true_iff, String.eqb_eq, !bool_decide_eq_true.
  split; [intros [[-> ->] ->]; reflexivity|intros [= -> -> ->]; auto].
Qed.

Lemma existsb_same_place (r : csv_row) (l : list poi_row) :
  existsb (same_place r) l = true <-> In (csv_name r, csv_lat r, csv_lon r) (map place_of l).
Proof.
  rewrite existsb_exists, in_map_iff. split.
  - intros (p & Hin & Hp). apply same_place_spec in Hp. eauto.
  - intros (p & Hp & Hin). exists p. split; [assumption|]. apply same_place_spec. auto.
Qed.

Lemma max_rowid_bound (l : list poi_row) (p : poi_row) :
  In p l -> poi_id p < next_rowid l.
Proof.
  unfold next_rowid. induction l as [|q l IH]; simpl; [tauto|].
  intros [->|Hin].
  - destruct (max_rowid l); lia.
  - specialize (IH Hin). destruct (max_rowid l) eqn:Hm; [lia|].
    destruct l; [destruct Hin|discriminate Hm].
Qed.

Lemma ids_ascending_snoc (l : list poi_row) (p : poi_row) :
  ids_ascending l -> (forall q, In q l -> poi_id q < poi_id p) ->
  ids_ascending (l ++ [p]).
Proof.
  unfold ids_ascending. induction l as [|q l IH]; simpl; intros Hs Hlt.
  - repeat constructor.
  - inversion Hs as [|? ? Hs' Hall]; subst. constructor; [auto|].
    rewrite map_app. apply Forall_app. split; [assumption|].
    simpl. constructor; [auto|constructor].
Qed.

(** What one [INSERT OR IGNORE] does. *)
Lemma insert_or_ignore_poi_spec (r : csv_row) (l : list poi_row) :
  (existsb (same_place r) l = true /\ insert_or_ignore_poi r l = (l, false))
  \/ (existsb (same_place r) l = false
      /\ exists p, insert_or_ignore_poi r l = (l ++ [p], true)
                   /\ place_of p = (csv_name r, csv_lat r, csv_lon r)
                   /\ summary_ru p = csv_text r
                   /\ forall q, In q l -> poi_id q < poi_id p).
Proof.
  unfold insert_or_ignore_poi. destruct (existsb (same_place r) l); [auto|right].
  split; [reflexivity|]. eexists. split; [reflexivity|]. simpl.
  repeat split. apply max_rowid_bound.
Qed.

Lemma insert_or_ignore_poi_keeps (r : csv_row) (l : list poi_row) :
  ids_ascending l -> places_unique l ->
  ids_ascending (fst (insert_or_ignore_poi r l))
  /\ places_unique (fst (insert_or_ignore_poi r l)).
Proof.
  intros Hids Hpl.
  destruct (insert_or_ignore_poi_spec r l) as [[_ ->]|(Hnew & p & -> & Hp & _ & Hlt)];
    simpl; [auto|].
  split; [apply ids_ascending_snoc; assumption|].
  unfold places_unique. rewrite map_app. simpl.
  apply (proj2 (NoDup_app (map place_of l) [place_of p])).
  split; [assumption|]. split.
  - intros x Hx Hx'. apply list_elem_of_In in Hx, Hx'. destruct Hx' as [<-|[]].
    rewrite Hp in Hx. apply existsb_same_place in Hx. congruence.
  - apply NoDup_singleton.
Qed.

(** The loop on a file that the reader delivers: the table grows at its
    end by as many rows as the counter grows, every new row is a line of
    the file, and afterwards every well-formed line has its place in the
    table. *)
Lemma import_rows_spec (rows : list csv_line) (l : list poi_row) (n : Z) :
  readable rows = true ->
  exists added,
    import_rows rows l n = Some (l ++ added, n + Z.of_nat (length added))
    /\ (length added <= length rows)%nat
    /\ (forall p, In p added ->
          exists r, In (Row r) rows /\ place_of p = (csv_name r, csv_lat r, csv_lon r)
                    /\ summary_ru p = csv_text r)
    /\ (forall r, In (Row r) rows ->
          In (csv_name r, csv_lat r, csv_lon r) (map place_of (l ++ added))).
Proof.
  revert l n. induction rows as [|[| |r] rows IH]; intros l n Hread; simpl in *.
  - exists []. rewrite app_nil_r. simpl. rewrite Z.add_0_r.
    repeat split; [lia|intros ? []|intros ? []].
  - discriminate.
  - destruct (IH l n Hread) as (added & -> & Hlen & Hfrom & Hall).
    exists added. repeat split; [lia| |].
    + intros q Hq. destruct (Hfrom q Hq) as (r' & ? & ?). eauto.
    + intros r' [[=]|Hr']. auto.
  - destruct (insert_or_ignore_poi_spec r l) as [[Hold ->]|(Hnew & p & -> & Hp & Ht & _)].
    + destruct (IH l n Hread) as (added & -> & Hlen & Hfrom & Hall).
      exists added. repeat split; [lia| |].
      * intros q Hq. destruct (Hfrom q Hq) as (r' & ? & ?). eauto.
      * intros r' [[= ->]|Hr']; [|auto].
        apply existsb_same_place in Hold.
        rewrite map_app. apply in_or_app. auto.
    + destruct (IH (l ++ [p]) (n + 1) Hread) as (added & -> & Hlen & Hfrom & Hall).
      exists (p :: added). rewrite <- app_assoc. simpl. repeat split.
      * do 2 f_equal. lia.
      * lia.
      * intros q [<-|Hq]; [eauto|].
        destruct (Hfrom q Hq) as (r' & ? & ?). eauto.
      * intros r' [[= ->]|Hr'].
        -- rewrite map_app. simpl. apply in_or_app. right. left. assumption.
        -- specialize (Hall r' Hr'). rewrite <- app_assoc in Hall. exact Hall.
Qed.

(** The loop on a file with a line that the reader cannot deliver. *)
Lemma import_rows_unreadable (rows : list csv_line) (l : list poi_row) (n : Z) :
  readable rows = false -> import_rows rows l n = None.
Proof.
  revert l n. induction rows as [|[| |r] rows IH]; intros l n Hread; simpl in *.
  - discriminate.
  - reflexivity.
  - auto.
  - destruct (insert_or_ignore_poi r l) as [l1 added]. auto.
Qed.

Lemma import_rows_keeps (rows : list csv_line) (l l1 : list poi_row) (n n1 : Z) :
  import_rows rows l n = Some (l1, n1) ->
  ids_ascending l -> places_unique l ->
  ids_ascending l1 /\ places_unique l1.
Proof.
  revert l n. induction rows as [|[| |r] rows IH]; intros l n Hrun Hids Hpl; simpl in *.
  - injection Hrun as <- <-. auto.
  - discriminate.
  - eauto.
  - destruct (insert_or_ignore_poi_keeps r l Hids Hpl) as [Hids1 Hpl1].
    destruct (insert_or_ignore_poi r l) as [l2 added]. simpl in *. eauto.
Qed.

Lemma import_rows_noop (rows : list csv_line) (l : list poi_row) (n : Z) :
  readable rows = true ->
  (forall r, In (Row r) rows -> In (csv_name r, csv_lat r, csv_lon r) (map place_of l)) ->
  import_rows rows l n = Some (l, n).
Proof.
  revert n. induction rows as [|[| |r] rows IH]; intros n Hread Hall; simpl in *.
  - reflexivity.
  - discriminate.
  - apply IH; [assumption|]. intros r' Hr'. apply Hall. right. assumption.
  - unfold insert_or_ignore_poi.
    assert (Hr : existsb (same_place r) l = true).
    { apply existsb_same_place. apply Hall. left. reflexivity. }
    rewrite Hr. apply IH; [assumption|]. intros r' Hr'. apply Hall. right. assumption.
Qed.

Lemma import_csv_run (rows : list csv_line) (s : db) :
  import_csv rows s =
  match import_rows rows (poi s) 0 with
  | Some (l1, inserted) => Done inserted (set_poi (fun _ => l1) s) []
  | None => Raised ReaderError s []
  end.
Proof.
  unfold import_csv. unfold_m. simpl.
  destruct (import_rows rows (poi s) 0) as [[l1 n]|]; reflexivity.
Qed.

Lemma import_rows_keeps_ids (rows : list csv_line) (l l1 : list poi_row) (n n1 : Z) :
  import_rows rows l n = Some (l1, n1) -> ids_ascending l -> ids_ascending l1.
Proof.
  revert l n. induction rows as [|[| |r] rows IH]; intros l n Hrun Hids; simpl in *.
  - injection Hrun as <- <-. assumption.
  - discriminate.
  - eauto.
  - destruct (insert_or_ignore_poi_spec r l) as [[_ Hi]|(_ & p & Hi & _ & _ & Hlt)];
      rewrite Hi in Hrun; [eauto|].
    eapply IH; [exact Hrun|]. apply ids_ascending_snoc; assumption.
Qed.

Lemma poi_import_csv (rows : list csv_line) (s : db) :
  poi (final_db (import_csv rows s)) =
  match import_rows rows (poi s) 0 with
  | Some (l1, _) => l1
  | None => poi s
  end.
Proof.
  rewrite import_csv_run.
  destruct (import_rows rows (poi s) 0) as [[l1 n]|]; reflexivity.
Qed.

Lemma lookup_by_ascending_id (l : list poi_row) (p : poi_row) :
  ids_ascending l -> In p l ->
  head (List.filter (fun q => poi_id q =? poi_id p) l) = Some p.
Proof.
  unfold ids_ascending. induction l as [|q l IH]; simpl; [tauto|].
  intros Hs Hin. inversion Hs as [|? ? Hs' Hall]; subst.
  destruct Hin as [->|Hin].
  - rewrite Z.eqb_refl. reflexivity.
  - assert (Hlt : poi_id q < poi_id p).
    { rewrite List.Forall_forall in Hall. apply Hall. apply in_map. assumption. }
    destruct (Z.eqb_spec (poi_id q) (poi_id p)); [lia|auto].
Qed.

(** X4. [import_csv] returns the number of rows it has added.  When the
    reader delivers every line, the catalogue grows at its end by exactly
    that many rows, no more than the file has lines, each new row carrying
    the name, coordinates and text of a well-formed line; afterwards every
    well-formed line has its place in the catalogue; the lines the body of
    the loop rejects are passed over; the ledger and the user tables are
    as before.  When the reader fails on a line, [import_csv] raises and
    the store is as it was, the rows of the lines before that one
    included. *)
Theorem import_csv_counts_new_rows (rows : list csv_line) (s : db) :
  if readable rows then
    exists added,
      import_csv rows s
      = Done (Z.of_nat (length added)) (set_poi (fun _ => poi s ++ added) s) []
      /\ (length added <= length rows)%nat
      /\ (forall p, In p added ->
            exists r, In (Row r) rows /\ place_of p = (csv_name r, csv_lat r, csv_lon r)
                      /\ summary_ru p = csv_text r)
      /\ (forall r, In (Row r) rows ->
            exists p, In p (poi s ++ added)
                      /\ place_of p = (csv_name r, csv_lat r, csv_lon r))
  else import_csv rows s = Raised ReaderError s [].
Proof.
  destruct (readable rows) eqn:Hread.
  - destruct (import_rows_spec rows (poi s) 0 Hread) as (added & Hrun & Hlen & Hfrom & Hall).
    exists added. rewrite import_csv_run, Hrun. simpl.
    repeat split; [assumption|assumption|].
    intros r Hr. specialize (Hall r Hr). apply in_map_iff in Hall.
    destruct Hall as (p & Hp & Hin). eauto.
  - rewrite import_csv_run, (import_rows_unreadable _ _ _ Hread). reflexivity.
Qed.

(** X5. Importing the same file a second time adds nothing.  For a file
    that the reader delivers (its coordinates being numbers), the second
    call returns 0 and leaves the store exactly as the first call left
    it, repeated lines of the file included; for a file on which the
    reader fails, both calls raise and the store is never changed. *)
Theorem import_csv_idempotent (rows : list csv_line) (s : db) :
  import_csv rows (final_db (import_csv rows s))
  = if readable rows then Done 0 (final_db (import_csv rows s)) []
    else Raised ReaderError s [].
Proof.
  destruct (readable rows) eqn:Hread.
  - destruct (import_rows_spec rows (poi s) 0 Hread) as (added & Hrun & _ & _ & Hall).
    rewrite (import_csv_run rows (final_db _)), poi_import_csv.
    rewrite Hrun.
    rewrite (import_rows_noop rows (poi s ++ added) 0 Hread Hall).
    rewrite import_csv_run, Hrun. reflexivity.
  - rewrite (import_csv_run rows s), (import_rows_unreadable _ _ _ Hread).
    cbn [final_db].
    rewrite import_csv_run, (import_rows_unreadable _ _ _ Hread). reflexivity.
Qed.

(** X6. The import keeps the two keys of the catalogue: when the ids of
    the table ascend (so no id occurs twice) and no two rows share name
    and coordinates, the same holds after [import_csv], for every file
    whose coordinates are numbers, whether the call returns or raises. *)
Theorem import_csv_keeps_keys (rows : list csv_line) (s : db) :
  ids_ascending (poi s) -> places_unique (poi s) ->
  ids_ascending (poi (final_db (import_csv rows s)))
  /\ places_unique (poi (final_db (import_csv rows s))).
Proof.
  intros Hids Hpl. rewrite poi_import_csv.
  destruct (import_rows rows (poi s) 0) as [[l1 n]|] eqn:Hrun; [|auto].
  eapply import_rows_keeps; eassumption.
Qed.

Lemma import_csv_keeps_keys_demo :
  ids_ascending (poi demo_db) /\ places_unique (poi demo_db)
  /\ ids_ascending (poi (final_db (import_csv
       [Row {| csv_name := "Lyceum"; csv_text := "1811";
               csv_lat := 59.7175%R; csv_lon := 30.3969%R |}; Malformed] demo_db)))
  /\ places_unique (poi (final_db (import_csv
       [Row {| csv_name := "Lyceum"; csv_text := "1811";
               csv_lat := 59.7175%R; csv_lon := 30.3969%R |}; Malformed] demo_db))).
Proof.
  assert (Hids : ids_ascending (poi demo_db)).
  { unfold ids_ascending. simpl. repeat constructor. }
  assert (Hpl : places_unique (poi demo_db)).
  { unfold places_unique. simpl. apply NoDup_singleton. }
  split; [exact Hids|]. split; [exact Hpl|].
  apply (import_csv_keeps_keys _ demo_db Hids Hpl).
Defined.

(** X7. Import, then look up: in a catalogue whose ids ascend, every row
    of the catalogue after [import_csv], old or new, is the row that
    [get_poi_by_id] returns for its id. *)
Theorem imported_rows_found_by_id (rows : list csv_line) (s : db) (p : poi_row) :
  ids_ascending (poi s) ->
  In p (poi (final_db (import_csv rows s))) ->
  get_poi_by_id (poi_id p) (final_db (import_csv rows s)) = Some p.
Proof.
  intros Hids Hin. unfold get_poi_by_id.
  apply lookup_by_ascending_id; [|assumption].
  rewrite poi_import_csv.
  destruct (import_rows rows (poi s) 0) as [[l1 n]|] eqn:Hrun; [|assumption].
  eapply import_rows_keeps_ids; eassumption.
Qed.

Lemma imported_rows_found_by_id_demo :
  ids_ascending (poi demo_db)
  /\ In (Build_poi_row 2 "Lyceum" 59.7175%R 30.3969%R "1811")
        (poi (final_db (import_csv
           [Row (Build_csv_row "Lyceum" "1811" 59.7175%R 30.3969%R)] demo_db)))
  /\ get_poi_by_id 2 (final_db (import_csv
           [Row (Build_csv_row "Lyceum" "1811" 59.7175%R 30.3969%R)] demo_db))
     = Some (Build_poi_row 2 "Lyceum" 59.7175%R 30.3969%R "1811").
Proof.
  assert (Hids : ids_ascending (poi demo_db)).
  { unfold ids_ascending. simpl. repeat constructor. }
  assert (Hin : In (Build_poi_row 2 "Lyceum" 59.7175%R 30.3969%R "1811")
        (poi (final_db (import_csv
           [Row (Build_csv_row "Lyceum" "1811" 59.7175%R 30.3969%R)] demo_db)))).
  { right. left. reflexivity. }
  split; [exact Hids|]. split; [exact Hin|].
  apply (imported_rows_found_by_id _ demo_db _ Hids Hin).
Defined.

(** ** What the handlers leave of the store *)

Lemma stats_evolve_refl (reset : Z -> bool) (t : gmap Z stats_row) :
  stats_evolve reset t t.
Proof.
  intros w. destruct (t !! w); [|exact I].
  split; [reflexivity|]. split; [intros _; apply Rle_refl|auto].
Qed.

Lemma stats_evolve_compose (f g : Z -> bool) (t1 t2 t3 : gmap Z stats_row) :
  stats_evolve f t1 t2 -> stats_evolve g t2 t3 ->
  stats_evolve (fun w => f w || g w) t1 t3.
Proof.
  intros H12 H23 w. specialize (H12 w). specialize (H23 w).
  destruct (t1 !! w) as [r1|], (t2 !! w) as [r2|], (t3 !! w) as [r3|];
    try tauto.
  destruct H12 as (Hf1 & Hd1 & Hp1), H23 as (Hf2 & Hd2 & Hp2).
  split; [congruence|]. split; [|auto].
  intros Hfg. apply orb_false_iff in Hfg. destruct Hfg as [Hf Hg].
  eapply Rle_trans; [apply Hd1|apply Hd2]; assumption.
Qed.

Lemma stats_evolve_trans (t1 t2 t3 : gmap Z stats_row) :
  stats_evolve (fun _ => false) t1 t2 -> stats_evolve (fun _ => false) t2 t3 ->
  stats_evolve (fun _ => false) t1 t3.
Proof. intros H12 H23. exact (stats_evolve_compose _ _ _ _ _ H12 H23). Qed.

Lemma stats_evolve_insert_or_ignore (uid today : Z) (s : db) :
  stats_evolve (fun _ => false) (user_stats s)
               (user_stats (insert_or_ignore_stats uid today s)).
Proof.
  unfold insert_or_ignore_stats.
  destruct (user_stats s !! uid) eqn:Hrow; [apply stats_evolve_refl|].
  intros w. simpl. destruct (decide (w = uid)) as [->|Hne].
  - rewrite Hrow, lookup_insert_eq. simpl. apply Rle_refl.
  - rewrite lookup_insert_ne by congruence.
    destruct (user_stats s !! w); [|exact I].
    split; [reflexivity|]. split; [intros _; apply Rle_refl|auto].
Qed.

Lemma stats_evolve_alter (f : stats_row -> stats_row) (uid : Z) (t : gmap Z stats_row) :
  (forall r, first_visit (f r) = first_visit r
             /\ (total_distance r <= total_distance (f r))%R) ->
  stats_evolve (fun _ => false) t (alter f uid t).
Proof.
  intros Hf w. destruct (decide (w = uid)) as [->|Hne].
  - rewrite lookup_alter_eq. destruct (t !! uid) as [r|]; simpl; [|exact I].
    destruct (Hf r) as [Hfirst Hdist]. split; [assumption|].
    split; [auto|]. intros H0. eapply Rle_trans; eassumption.
  - rewrite lookup_alter_ne by congruence.
    destruct (t !! w); [|exact I].
    split; [reflexivity|]. split; [intros _; apply Rle_refl|auto].
Qed.

Lemma handler_frame_here {A : Type} (s : db) (r : result A) :
  final_db r = s ->
  (forall why uid pid d nx, ~ In (PoiCard why uid pid d nx) (output r)) ->
  handler_frame s r.
Proof.
  intros Hs Hout. subst s. split; [reflexivity|]. split; [reflexivity|].
  split; [apply stats_evolve_refl|].
  intros why uid pid d nx Hin. destruct (Hout _ _ _ _ _ Hin).
Qed.

Lemma handler_frame_tracking {A : Type} (s : db) (r : result A) :
  poi (final_db r) = poi s -> visit_log (final_db r) = visit_log s ->
  user_stats (final_db r) = user_stats s -> output r = [] ->
  handler_frame s r.
Proof.
  intros Hp Hl Hs Hout. split; [assumption|]. split; [assumption|].
  split; [rewrite Hs; apply stats_evolve_refl|].
  rewrite Hout. intros ? ? ? ? ? [].
Qed.

Lemma handler_frame_bind {A B : Type} (m : M A) (f : A -> M B) (s : db) :
  handler_frame s (m s) ->
  (forall a s1, handler_frame s1 (f a s1)) ->
  handler_frame s ((m ≫= f) s).
Proof.
  intros (Hp & Hl & Hs & Hcards) Hf.
  unfold handler_frame, mbind, M_bind.
  destruct (m s) as [a s1 o1|e s1 o1]; simpl in *.
  - destruct (Hf a s1) as (Hp2 & Hl2 & Hs2 & Hcards2).
    destruct (f a s1) as [b s2 o2|e s2 o2]; simpl in *.
    + split; [congruence|]. split; [congruence|].
      split; [eapply stats_evolve_trans; eassumption|].
      intros why uid pid d nx Hin. apply in_app_or in Hin.
      destruct Hin as [Hin|Hin].
      * destruct (Hcards _ _ _ _ _ Hin) as (? & ? & [=]).
      * destruct (Hcards2 _ _ _ _ _ Hin) as (? & ? & [=]).
    + split; [congruence|]. split; [congruence|].
      split; [eapply stats_evolve_trans; eassumption|].
      intros why uid pid d nx Hin. apply in_app_or in Hin.
      destruct Hin as [Hin|Hin].
      * destruct (Hcards _ _ _ _ _ Hin) as (? & ? & [=]).
      * destruct (Hcards2 _ _ _ _ _ Hin) as (s' & out & [= -> -> ->]). eauto.
  - split; [assumption|]. split; [assumption|]. split; [assumption|].
    intros why uid pid d nx Hin.
    destruct (Hcards _ _ _ _ _ Hin) as (s' & out & [= -> -> ->]). eauto.
Qed.

Lemma show_poi_info_frame (why : card_origin) (u : update) (p : poi_row) (d : R)
    (now : Z) (s : db) :
  handler_frame s (show_poi_info why u p d now s).
Proof.
  rewrite show_poi_info_run. destruct (has_message u).
  - split; [reflexivity|]. split; [reflexivity|].
    split; [apply stats_evolve_refl|]. intros; eauto.
  - apply handler_frame_here; [reflexivity|]. intros ? ? ? ? ? [].
Qed.

Lemma update_user_position_frame (uid : Z) (lat lon : R) (now : Z) (s : db) :
  handler_frame s (update_user_position uid lat lon now s).
Proof.
  pose proof (update_user_position_effect uid lat lon now s) as Heff.
  destruct (update_user_position uid lat lon now s) as [[] s1 out|e s1 out] eqn:E.
  2: { destruct Heff as [-> ->]. apply handler_frame_here; [reflexivity|].
       intros ? ? ? ? ? []. }
  destruct Heff as (_ & Hp & Hl & ->).
  split; [assumption|]. split; [assumption|]. split.
  2: { intros ? ? ? ? ? []. }
  simpl. revert E. unfold update_user_position. unfold_m.
  rewrite tracking_insert_or_ignore_stats.
  pose proof (stats_evolve_insert_or_ignore uid (date_of now) s) as Hinit.
  destruct (user_tracking s !! uid) as [r|]; simpl.
  - destruct (float_truthy (last_lat r)); simpl.
    + destruct (last_lat r) as [la|], (last_lon r) as [lo|]; simpl; try discriminate.
      case_decide; simpl; intros [= <-]; simpl.
      * eapply stats_evolve_trans; [exact Hinit|].
        apply stats_evolve_alter. intros r0. simpl. split; [reflexivity|]. lra.
      * exact Hinit.
    + intros [= <-]. exact Hinit.
  - intros [= <-]. exact Hinit.
Qed.

Lemma set_navigation_target_frame (uid pid now : Z) (s : db) :
  handler_frame s (set_navigation_target uid pid now s).
Proof. apply handler_frame_tracking; reflexivity. Qed.

Lemma clear_navigation_target_frame (uid : Z) (s : db) :
  handler_frame s (clear_navigation_target uid s).
Proof. apply handler_frame_tracking; reflexivity. Qed.

Lemma offer_targets_frame (uid : Z) (lat lon : R) (now : Z) (s : db) :
  handler_frame s (offer_targets uid lat lon now s).
Proof.
  unfold offer_targets. unfold_m.
  destruct (find_nearest_unvisited uid lat lon 3 now s); simpl;
    (apply handler_frame_here; [reflexivity|]); simpl.
  - intros ? ? ? ? ? [].
  - intros ? ? ? ? ? [[=]|[]].
Qed.

Lemma navigate_frame (u : update) (track : tracking_row) (target : Z) (lat lon : R)
    (now : Z) (s : db) :
  handler_frame s (navigate u track target lat lon now s).
Proof.
  unfold navigate. apply handler_frame_bind.
  { apply handler_frame_here; [reflexivity|]. intros ? ? ? ? ? []. }
  intros [p|] s1.
  2: { apply handler_frame_here; [reflexivity|]. intros ? ? ? ? ? []. }
  case_decide.
  - destruct (notified_arrived track).
    + apply handler_frame_here; [reflexivity|]. intros ? ? ? ? ? [].
    + apply handler_frame_bind; [apply show_poi_info_frame|]. intros _ s2.
      apply handler_frame_bind; [apply clear_navigation_target_frame|]. intros _ s3.
      apply handler_frame_tracking; reflexivity.
  - case_decide.
    + destruct (notified_50m track).
      * apply handler_frame_here; [reflexivity|]. intros ? ? ? ? ? [].
      * apply handler_frame_bind.
        { apply handler_frame_here; [reflexivity|]. intros ? ? ? ? ? [[=]|[]]. }
        intros _ s2. apply handler_frame_tracking; reflexivity.
    + apply handler_frame_here; [reflexivity|]. intros ? ? ? ? ? [[=]|[]].
Qed.

Lemma handle_live_location_frame (u : update) (lat lon : R) (now : Z) (s : db) :
  handler_frame s (handle_live_location u lat lon now s).
Proof.
  unfold handle_live_location. apply handler_frame_bind.
  { apply handler_frame_here; [reflexivity|]. intros ? ? ? ? ? []. }
  intros [r|] s1; [|apply offer_targets_frame].
  destruct (int_truthy (target_poi_id r)); [apply navigate_frame|apply offer_targets_frame].
Qed.

Lemma show_nearest_poi_frame (u : update) (lat lon : R) (now : Z) (s : db) :
  handler_frame s (show_nearest_poi u lat lon now s).
Proof.
  unfold show_nearest_poi. apply handler_frame_bind.
  { apply handler_frame_here; [reflexivity|]. intros ? ? ? ? ? []. }
  intros [h|] s1; [apply show_poi_info_frame|].
  apply handler_frame_here; [reflexivity|]. intros ? ? ? ? ? [[=]|[]].
Qed.

Lemma on_location_frame (u : update) (now : Z) (s : db) :
  handler_frame s (on_location u now s).
Proof.
  unfold on_location. destruct (upd_loc u) as [[lat lon]|].
  2: { apply handler_frame_here; [reflexivity|]. intros ? ? ? ? ? []. }
  apply handler_frame_bind; [apply update_user_position_frame|]. intros _ s1.
  destruct (is_live u); [apply handle_live_location_frame|apply show_nearest_poi_frame].
Qed.

(** [cmd_reset] in one piece. *)
Lemma cmd_reset_run (uid : Z) (s : db) :
  cmd_reset uid s =
  Done tt {| poi := poi s;
             visit_log := List.filter (fun v => negb (visit_user v =? uid)) (visit_log s);
             user_tracking := delete uid (user_tracking s);
             user_stats := alter (with_total_distance 0%R) uid (user_stats s) |} [].
Proof. reflexivity. Qed.

Lemma stats_evolve_reset (uid : Z) (t : gmap Z stats_row) :
  stats_evolve (fun w => uid =? w) t (alter (with_total_distance 0%R) uid t).
Proof.
  intros w. destruct (decide (w = uid)) as [->|Hne].
  - rewrite lookup_alter_eq. destruct (t !! uid) as [r|]; simpl; [|exact I].
    split; [reflexivity|]. rewrite Z.eqb_refl. split; [discriminate|].
    intros _. apply Rle_refl.
  - rewrite lookup_alter_ne by congruence.
    destruct (t !! w); [|exact I].
    split; [reflexivity|]. split; [intros _; apply Rle_refl|auto].
Qed.

(** Every operation: the catalogue stays, the ledger gets no new row, the
    statistics evolve, and an operation that has sent a card has raised. *)
Lemma step_frame (o : op) (now : Z) (s : db) :
  poi (final_db (step o now s)) = poi s
  /\ (forall v, In v (visit_log (final_db (step o now s))) -> In v (visit_log s))
  /\ stats_evolve (fun w => resets w o) (user_stats s) (user_stats (final_db (step o now s)))
  /\ (forall why uid pid d nx,
        In (PoiCard why uid pid d nx) (output (step o now s)) ->
        visit_log (final_db (step o now s)) = visit_log s
        /\ exists s' out, step o now s = Raised OperationalError s' out).
Proof.
  assert (Hframe : forall r : result unit, handler_frame s r ->
            poi (final_db r) = poi s
            /\ (forall v, In v (visit_log (final_db r)) -> In v (visit_log s))
            /\ stats_evolve (fun _ => false) (user_stats s) (user_stats (final_db r))
            /\ (forall why uid pid d nx,
                  In (PoiCard why uid pid d nx) (output r) ->
                  visit_log (final_db r) = visit_log s
                  /\ exists s' out, r = Raised OperationalError s' out)).
  { intros r (Hp & Hl & Hs & Hcards). split; [assumption|].
    split; [rewrite Hl; auto|]. split; [assumption|]. eauto. }
  destruct o as [uid pid|uid|u|u lat lon|uid pid|uid]; cbn [step].
  - exact (Hframe _ (set_navigation_target_frame uid pid now s)).
  - exact (Hframe _ (clear_navigation_target_frame uid s)).
  - exact (Hframe _ (on_location_frame u now s)).
  - exact (Hframe _ (handle_live_location_frame u lat lon now s)).
  - apply (Hframe (mark_visit uid pid now s)).
    apply handler_frame_here; [reflexivity|]. intros ? ? ? ? ? [].
  - rewrite cmd_reset_run. cbn [final_db output user_stats poi visit_log resets].
    split; [reflexivity|].
    split; [intros v Hv; apply filter_In in Hv; tauto|].
    split; [apply stats_evolve_reset|]. intros ? ? ? ? ? [].
Qed.

Lemma run_cons (o : op) (now : Z) (rest : list (op * Z)) (s : db) :
  fst (run ((o, now) :: rest) s) = fst (run rest (final_db (step o now s))).
Proof. simpl. destruct (run rest (final_db (step o now s))). reflexivity. Qed.

Lemma run_frame (ops : list (op * Z)) (s : db) :
  poi (fst (run ops s)) = poi s
  /\ (forall v, In v (visit_log (fst (run ops s))) -> In v (visit_log s))
  /\ stats_evolve (fun w => existsb (fun x => resets w (fst x)) ops)
       (user_stats s) (user_stats (fst (run ops s))).
Proof.
  revert s. induction ops as [|[o now] ops IH]; intros s.
  - simpl. split; [reflexivity|]. split; [auto|apply stats_evolve_refl].
  - rewrite run_cons.
    destruct (step_frame o now s) as (Hp & Hl & Hs & _).
    destruct (IH (final_db (step o now s))) as (Hp' & Hl' & Hs').
    split; [congruence|]. split; [auto|]. simpl.
    exact (stats_evolve_compose _ _ _ _ _ Hs Hs').
Qed.

(** X8. No handler writes the catalogue: after any sequence of
    operations (targets set and cleared, reports, live handling, visits,
    resets) the [poi] table is the one before, and so is every lookup by
    id. *)
Theorem handlers_leave_catalogue (ops : list (op * Z)) (s : db) :
  poi (fst (run ops s)) = poi s
  /\ forall pid, get_poi_by_id pid (fst (run ops s)) = get_poi_by_id pid s.
Proof.
  destruct (run_frame ops s) as [Hp _]. split; [assumption|].
  intros pid. unfold get_poi_by_id. rewrite Hp. reflexivity.
Qed.

(** X9. A statistics row, once there, stays, and its [first_visit] never
    changes: not by later visits, not by position reports, and not by
    [cmd_reset], which zeroes the distance only. *)
Theorem first_visit_is_permanent (ops : list (op * Z)) (s : db) (uid : Z) (r : stats_row) :
  user_stats s !! uid = Some r ->
  exists r', user_stats (fst (run ops s)) !! uid = Some r'
             /\ first_visit r' = first_visit r.
Proof.
  intros Hrow. destruct (run_frame ops s) as (_ & _ & Hs). specialize (Hs uid).
  rewrite Hrow in Hs.
  destruct (user_stats (fst (run ops s)) !! uid) as [r'|]; [|destruct Hs].
  exists r'. split; [reflexivity|]. apply Hs.
Qed.

Lemma first_visit_is_permanent_demo :
  user_stats walker_db !! 1 = Some (new_stats 0)
  /\ exists r',
       user_stats (fst (run [(RecordVisit 1 1, 100000); (ResetUser 1, 200000)] walker_db))
         !! 1 = Some r'
       /\ first_visit r' = first_visit (new_stats 0).
Proof.
  assert (H : user_stats walker_db !! 1 = Some (new_stats 0)) by reflexivity.
  split; [exact H|].
  apply (first_visit_is_permanent _ walker_db 1 (new_stats 0) H).
Defined.

(** X10. The distance walked by a user never goes down, and never below
    zero, as long as that user does not reset: reports add to it, and
    visits, targets and the resets of other users leave it alone. *)
Theorem distance_never_decreases (ops : list (op * Z)) (s : db) (uid : Z) :
  existsb (fun x => resets uid (fst x)) ops = false ->
  (distance_walked uid s <= distance_walked uid (fst (run ops s)))%R.
Proof.
  intros Hno. destruct (run_frame ops s) as (_ & _ & Hs). specialize (Hs uid).
  unfold distance_walked.
  destruct (user_stats s !! uid) as [r|],
           (user_stats (fst (run ops s)) !! uid) as [r'|]; simpl in *.
  - apply Hs. assumption.
  - destruct Hs.
  - assumption.
  - apply Rle_refl.
Qed.

Lemma distance_never_decreases_demo :
  existsb (fun x => resets 1 (fst x)) [(RecordVisit 1 1, 100); (ResetUser 2, 200)] = false
  /\ Rle (distance_walked 1 walker_db)
         (distance_walked 1 (fst (run [(RecordVisit 1 1, 100); (ResetUser 2, 200)]
                                      walker_db))).
Proof.
  assert (H : existsb (fun x => resets 1 (fst x))
                [(RecordVisit 1 1, 100); (ResetUser 2, 200)] = false) by reflexivity.
  split; [exact H|].
  apply (distance_never_decreases _ walker_db 1 H).
Defined.

(** The card of the demo scenario. *)
Lemma on_location_demo_card :
  output (on_location (fresh_report 1 59.7161%R 30.39530%R) 0 demo_db)
  = [PoiCard Surfaced 1 1 (haversine 59.7161 30.39530 59.71618 30.39530) (Some 1)].
Proof.
  destruct (on_location_fresh 1 59.7161%R 30.39530%R 0 demo_db)
    as (s1 & Ht1 & Hp1 & Hl1 & ->).
  { intros r. simpl. rewrite lookup_empty. discriminate. }
  assert (Hn1 : nearest 1 59.7161 30.39530 0 s1
                = Some (with_dist 59.7161%R 30.39530%R kavalerskie)).
  { rewrite (nearest_single _ _ _ _ _ kavalerskie Hp1), Hl1. simpl.
    rewrite decide_True; [reflexivity|].
    rewrite sql_dist_kavalerskie. unfold RADIUS. lra. }
  rewrite (show_nearest_poi_card (fresh_report 1 59.7161%R 30.39530%R)
             59.7161%R 30.39530%R 0 s1 _ Hn1 eq_refl).
  cbn [final_db output upd_user fresh_report with_dist hit_poi].
  rewrite (find_nearest_unvisited_single _ _ _ _ _ _ kavalerskie Hp1) by lia.
  rewrite Hl1. reflexivity.
Qed.

(** X11. A card is never recorded as a visit: an operation that sends the
    card of a POI raises right after it (the database is locked when the
    visit is written), the ledger is as it was before the operation, and
    so the same lookups return that POI to that user again. *)
Theorem card_is_followed_by_error (o : op) (now : Z) (s : db)
    (why : card_origin) (uid pid : Z) (d : R) (nx : option Z) :
  In (PoiCard why uid pid d nx) (output (step o now s)) ->
  (exists s' out, step o now s = Raised OperationalError s' out)
  /\ visit_log (final_db (step o now s)) = visit_log s
  /\ forall w lat lon limit now',
       nearest w lat lon now' (final_db (step o now s)) = nearest w lat lon now' s
       /\ find_nearest_unvisited w lat lon limit now' (final_db (step o now s))
          = find_nearest_unvisited w lat lon limit now' s.
Proof.
  intros Hcard. destruct (step_frame o now s) as (Hp & _ & _ & Hcards).
  destruct (Hcards _ _ _ _ _ Hcard) as [Hl Hraised].
  split; [assumption|]. split; [assumption|].
  intros w lat lon limit now'. split.
  - apply nearest_ext; assumption.
  - apply find_nearest_unvisited_ext; assumption.
Qed.

Lemma card_is_followed_by_error_demo :
  In (PoiCard Surfaced 1 1 (haversine 59.7161 30.39530 59.71618 30.39530) (Some 1))
     (output (step (Location (fresh_report 1 59.7161%R 30.39530%R)) 0 demo_db))
  /\ visit_log (final_db (step (Location (fresh_report 1 59.7161%R 30.39530%R)) 0 demo_db))
     = visit_log demo_db.
Proof.
  assert (H : In (PoiCard Surfaced 1 1 (haversine 59.7161 30.39530 59.71618 30.39530)
                    (Some 1))
                (output (step (Location (fresh_report 1 59.7161%R 30.39530%R)) 0 demo_db))).
  { cbn [step]. rewrite on_location_demo_card. left. reflexivity. }
  split; [exact H|].
  exact (proj1 (proj2 (card_is_followed_by_error _ 0 demo_db _ _ _ _ _ H))).
Defined.

Lemma size_list_to_set_le (l : list Z) :
  (size (list_to_set l : gset Z) <= length l)%nat.
Proof.
  induction l as [|x l IH].
  - rewrite list_to_set_nil, size_empty. simpl. lia.
  - rewrite list_to_set_cons. cbn [length].
    pose proof (size_union_alt ({[x]} : gset Z) (list_to_set l)) as H.
    rewrite H, size_singleton.
    assert (Hsub : (list_to_set l ∖ {[x]} : gset Z) ⊆ list_to_set l).
    { intros y Hy. apply elem_of_difference in Hy. tauto. }
    apply subseteq_size in Hsub. lia.
Qed.

Lemma user_visits_subset (uid : Z) (log log' : list visit_row) :
  (forall v, In v log' -> In v log) ->
  (list_to_set (user_visits uid log') : gset Z) ⊆ list_to_set (user_visits uid log).
Proof.
  intros Hsub x Hx. apply elem_of_list_to_set, list_elem_of_In in Hx.
  apply elem_of_list_to_set, list_elem_of_In.
  unfold user_visits in *. apply in_map_iff in Hx.
  destruct Hx as (v & <- & Hv). apply filter_In in Hv. destruct Hv as [Hv Hu].
  apply in_map. apply filter_In. auto.
Qed.

(** X14. The ledger never grows: after any sequence of operations, direct
    calls of [mark_visit] included, every row of the ledger was there
    before, so no user's count of distinct visited places, whatever POI
    cards were sent, is higher than it was. *)
Theorem ledger_never_grows (ops : list (op * Z)) (s : db) :
  (forall v, In v (visit_log (fst (run ops s))) -> In v (visit_log s))
  /\ forall uid, visited_places uid (fst (run ops s)) <= visited_places uid s.
Proof.
  destruct (run_frame ops s) as (_ & Hl & _). split; [assumption|].
  intros uid. unfold visited_places.
  pose proof (subseteq_size _ _ (user_visits_subset uid _ _ Hl)). lia.
Qed.

Lemma recently_visited_after_reset (log : list visit_row) (uid w limit : Z) (p : poi_row) :
  recently_visited (List.filter (fun v => negb (visit_user v =? uid)) log) w limit p
  = if w =? uid then false else recently_visited log w limit p.
Proof.
  unfold recently_visited. induction log as [|v log IH]; simpl.
  - destruct (w =? uid); reflexivity.
  - destruct (Z.eqb_spec (visit_user v) uid) as [Hv|Hv]; simpl.
    + rewrite IH. destruct (Z.eqb_spec w uid) as [->|Hw]; [reflexivity|].
      destruct (Z.eqb_spec (visit_user v) w); [congruence|reflexivity].
    + rewrite IH. destruct (Z.eqb_spec w uid) as [->|Hw]; [|reflexivity].
      destruct (Z.eqb_spec (visit_user v) uid); [congruence|reflexivity].
Qed.

(** X12. [cmd_reset] forgets the user and nobody else: afterwards every
    catalogue entry is unvisited for the user, whatever the time, the
    navigation row is gone and the distance walked is zero; for every
    other user the unvisited entries, the navigation row and the
    statistics row are as before. *)
Theorem cmd_reset_forgets_one_user (uid now : Z) (s : db) :
  unvisited uid now (final_db (cmd_reset uid s)) = poi s
  /\ user_tracking (final_db (cmd_reset uid s)) !! uid = None
  /\ distance_walked uid (final_db (cmd_reset uid s)) = 0%R
  /\ forall w, w <> uid ->
       unvisited w now (final_db (cmd_reset uid s)) = unvisited w now s
       /\ user_tracking (final_db (cmd_reset uid s)) !! w = user_tracking s !! w
       /\ user_stats (final_db (cmd_reset uid s)) !! w = user_stats s !! w.
Proof.
  rewrite cmd_reset_run. cbn [final_db]. unfold unvisited, distance_walked.
  cbn [poi visit_log user_tracking user_stats]. repeat split.
  - induction (poi s) as [|p l IH]; [reflexivity|]. simpl.
    rewrite recently_visited_after_reset, Z.eqb_refl. simpl. rewrite IH. reflexivity.
  - apply lookup_delete_eq.
  - rewrite lookup_alter_eq. destruct (user_stats s !! uid); reflexivity.
  - apply filter_ext. intros p. rewrite recently_visited_after_reset.
    destruct (Z.eqb_spec w uid); [congruence|reflexivity].
  - apply lookup_delete_ne. congruence.
  - apply lookup_alter_ne. congruence.
Qed.

(** ** Errors *)

(** X13. [set_navigation_target] does not look the id up: for an id that
    the database takes (an integer of 64 bits) and that no entry of the
    catalogue has (and that is not 0, which reads as no target), the
    target is set, and a direct call of [handle_live_location] for that
    user raises on the missing row, sends nothing and leaves the store as
    it was. *)
Theorem unknown_target_raises (u : update) (pid : Z) (lat lon : R) (now now' : Z) (s : db) :
  int64 pid -> pid <> 0 -> get_poi_by_id pid s = None ->
  (exists r, user_tracking (final_db (set_navigation_target (upd_user u) pid now s))
               !! upd_user u = Some r /\ target_poi_id r = Some pid)
  /\ handle_live_location u lat lon now'
       (final_db (set_navigation_target (upd_user u) pid now s))
     = Raised TypeError (final_db (set_navigation_target (upd_user u) pid now s)) [].
Proof.
  intros _ Hpid Hnone. split.
  { exists (target_row pid now). simpl. rewrite lookup_insert_eq. auto. }
  unfold handle_live_location, navigate. unfold_m.
  cbn [final_db set_navigation_target user_tracking set_tracking].
  simpl. rewrite lookup_insert_eq. simpl.
  apply Z.eqb_neq in Hpid. rewrite Hpid. simpl.
  unfold get_poi_by_id in *. simpl. rewrite Hnone. reflexivity.
Qed.

Lemma unknown_target_raises_demo :
  int64 7 /\ 7 <> 0 /\ get_poi_by_id 7 demo_db = None
  /\ handle_live_location (live_report 1 59.7161%R 30.3953%R) 59.7161%R 30.3953%R 60
       (final_db (set_navigation_target 1 7 0 demo_db))
     = Raised TypeError (final_db (set_navigation_target 1 7 0 demo_db)) [].
Proof.
  assert (H64 : int64 7) by (unfold int64; lia).
  assert (H7 : 7 <> 0) by lia.
  assert (Hnone : get_poi_by_id 7 demo_db = None) by reflexivity.
  split; [exact H64|]. split; [exact H7|]. split; [exact Hnone|].
  exact (proj2 (unknown_target_raises (live_report 1 59.7161%R 30.3953%R) 7
                  59.7161%R 30.3953%R 0 60 demo_db H64 H7 Hnone)).
Defined.

Lemma positions_complete_insert (uid : Z) (r : tracking_row) (s s' : db) :
  (is_Some (last_lat r) -> is_Some (last_lon r)) ->
  user_tracking s' = <[uid := r]> (user_tracking s) ->
  positions_complete s -> positions_complete s'.
Proof.
  intros Hr Ht Hwf w r'. rewrite Ht. destruct (decide (w = uid)) as [->|Hne].
  - rewrite lookup_insert_eq. intros [= <-]. assumption.
  - rewrite lookup_insert_ne by congruence. apply Hwf.
Qed.

Lemma positions_complete_alter (f : tracking_row -> tracking_row) (uid : Z) (s s' : db) :
  (forall r, last_lat (f r) = last_lat r /\ last_lon (f r) = last_lon r) ->
  user_tracking s' = alter f uid (user_tracking s) ->
  positions_complete s -> positions_complete s'.
Proof.
  intros Hf Ht Hwf w r'. rewrite Ht. destruct (decide (w = uid)) as [->|Hne].
  - rewrite lookup_alter_eq. destruct (user_tracking s !! uid) as [r|] eqn:Hr; [|discriminate].
    intros [= <-]. destruct (Hf r) as [-> ->]. apply (Hwf uid r Hr).
  - rewrite lookup_alter_ne by congruence. apply Hwf.
Qed.

Lemma positions_complete_same (s s' : db) :
  user_tracking s' = user_tracking s -> positions_complete s -> positions_complete s'.
Proof. intros Ht Hwf w r. rewrite Ht. apply Hwf. Qed.

Lemma positions_complete_step (o : op) (now : Z) (s : db) :
  positions_complete s -> positions_complete (final_db (step o now s)).
Proof.
  intros Hwf. destruct o as [uid pid|uid|u|u lat lon|uid pid|uid]; cbn [step].
  - eapply (positions_complete_insert uid (target_row pid now)); [|reflexivity|exact Hwf].
    simpl. intros [? [=]].
  - eapply (positions_complete_alter cleared uid); [|reflexivity|exact Hwf].
    intros r. split; reflexivity.
  - destruct (on_location_outcome u now s) as [[Ht|(lat & lon & Ht)] _].
    + eapply positions_complete_same; eassumption.
    + eapply positions_complete_insert; [|exact Ht|exact Hwf]. simpl. eauto.
  - destruct (handle_live_location_outcome u lat lon now s)
      as [Hsame _|track _ _ Hsame _|track _ _ _ Ht _|track _ _ _ Ht _ _].
    + eapply positions_complete_same; eassumption.
    + eapply positions_complete_same; eassumption.
    + intros w r. rewrite Ht. destruct (decide (w = upd_user u)) as [->|Hne].
      * rewrite !lookup_alter_eq.
        destruct (user_tracking s !! upd_user u) as [r0|] eqn:Hr; [|discriminate].
        intros [= <-]. simpl. apply (Hwf _ _ Hr).
      * rewrite !lookup_alter_ne by congruence. apply Hwf.
    + eapply (positions_complete_alter set_notified_50m); [|exact Ht|exact Hwf].
      intros r. split; reflexivity.
  - exact Hwf.
  - rewrite cmd_reset_run. intros w r. cbn [final_db user_tracking].
    destruct (decide (w = uid)) as [->|Hne].
    + rewrite lookup_delete_eq. discriminate.
    + rewrite lookup_delete_ne by congruence. apply Hwf.
Qed.

Lemma positions_complete_run (ops : list (op * Z)) (s : db) :
  positions_complete s -> positions_complete (fst (run ops s)).
Proof.
  revert s. induction ops as [|[o now] ops IH]; intros s Hwf; [exact Hwf|].
  rewrite run_cons. apply IH, positions_complete_step, Hwf.
Qed.

(** ** Achievements *)

Ltac split_leb :=
  repeat match goal with
         | |- context [?a <=? ?b] => destruct (Z.leb_spec a b); try lia
         end.

(** X15. The promise of [next_level_info] is kept by [user_stats]: when it
    returns [k] and a title, [k] is positive, the title changes to that
    one at exactly [k] more places and not before; it returns [(0, None)]
    only from 20 places on, where the title stays for good. *)
Theorem next_level_promise (visited : Z) :
  match next_level_info visited with
  | (k, Some t) =>
      0 < k /\ level_title (visited + k) = t /\ level_title visited <> t
      /\ forall v, visited <= v < visited + k -> level_title v = level_title visited
  | (k, None) =>
      k = 0 /\ 20 <= visited
      /\ forall v, visited <= v -> level_title v = level_title visited
  end.
Proof.
  unfold next_level_info, LEVELS, next_level_in.
  repeat match goal with
         | |- context [visited <? ?n] => destruct (Z.ltb_spec visited n)
         end.
  all: repeat split; try lia.
  all: try (intros v Hv); unfold level_title, LEVELS; cbn [fold_left]; split_leb;
    try reflexivity; try discriminate.
Qed.

(** ** Route suggestion *)

Lemma find_nearest_unvisited_nil (uid : Z) (lat lon : R) (limit now : Z) (s : db) :
  0 < limit ->
  find_nearest_unvisited uid lat lon limit now s = [] -> unvisited uid now s = [].
Proof.
  intros Hlim H. destruct (unvisited uid now s) as [|p l] eqn:E; [reflexivity|].
  exfalso.
  assert (Hlen : length (find_nearest_unvisited uid lat lon limit now s) = 0%nat)
    by (rewrite H; reflexivity).
  unfold find_nearest_unvisited in Hlen. rewrite E in Hlen.
  unfold sql_limit in Hlen. destruct (limit <? 0) eqn:Hneg; [lia|].
  rewrite length_firstn, length_order_by in Hlen. simpl in Hlen. lia.
Qed.

(** X18. What the answers of [cmd_route] mean, whenever it answers: it
    asks for a location only without a row or without a truthy latitude;
    it says that all is visited only when no catalogue entry is eligible
    for the user; and a route holds between one and three stops, the
    ranking from the stored position. *)
Theorem cmd_route_reply (uid now : Z) (s : db) :
  match cmd_route uid now s with
  | Some AskLocation =>
      forall r, user_tracking s !! uid = Some r -> float_truthy (last_lat r) = false
  | Some AllVisited => forall p, ~ eligible uid now s p
  | Some (Route stops) =>
      stops <> [] /\ (length stops <= 3)%nat
      /\ exists r la lo,
           user_tracking s !! uid = Some r
           /\ last_lat r = Some la /\ last_lon r = Some lo
           /\ stops = find_nearest_unvisited uid la lo 3 now s
  | None => True
  end.
Proof.
  unfold cmd_route.
  destruct (user_tracking s !! uid) as [r|] eqn:Hr; [|discriminate].
  destruct (float_truthy (last_lat r)) eqn:Htruthy.
  2: { intros r' [= <-]. assumption. }
  assert (Hnone : unvisited uid now s = [] -> forall p, ~ eligible uid now s p).
  { intros E p Hp. apply In_unvisited in Hp. rewrite E in Hp. destruct Hp. }
  destruct (last_lat r) as [la|] eqn:Hla; [|discriminate].
  destruct (last_lon r) as [lo|] eqn:Hlo.
  - destruct (find_nearest_unvisited uid la lo 3 now s) as [|h l] eqn:E.
    + apply Hnone. apply find_nearest_unvisited_nil in E; [assumption|lia].
    + split; [discriminate|]. split.
      * rewrite <- E. unfold find_nearest_unvisited, sql_limit. simpl.
        rewrite length_firstn. lia.
      * exists r, la, lo. auto.
  - destruct (unvisited uid now s) as [|p l] eqn:E; [|exact I].
    apply Hnone. reflexivity.
Qed.

(** A route of one stop: user 1 stands some 9 m south of the only entry. *)
Example cmd_route_one_stop :
  cmd_route 1 60 (final_db (update_user_position 1 59.7161%R 30.39530%R 0 demo_db))
  = Some (Route [with_dist 59.7161%R 30.39530%R kavalerskie]).
Proof.
  destruct (update_user_position_done 1 59.7161%R 30.39530%R 0 demo_db)
    as (s1 & -> & Ht & Hp & Hl).
  { intros r. simpl. rewrite lookup_empty. discriminate. }
  cbn [final_db]. unfold cmd_route. rewrite Ht, lookup_insert_eq. simpl.
  rewrite bool_decide_true by lra.
  rewrite (find_nearest_unvisited_single _ _ _ _ _ _ kavalerskie Hp) by lia.
  rewrite Hl. reflexivity.
Qed.

Lemma cmd_route_reply_demo :
  let s := final_db (update_user_position 1 59.7161%R 30.39530%R 0 demo_db) in
  cmd_route 1 60 s = Some (Route [with_dist 59.7161%R 30.39530%R kavalerskie])
  /\ exists r la lo,
       user_tracking s !! 1 = Some r
       /\ last_lat r = Some la /\ last_lon r = Some lo
       /\ [with_dist 59.7161%R 30.39530%R kavalerskie] = find_nearest_unvisited 1 la lo 3 60 s.
Proof.
  cbv zeta. split; [exact cmd_route_one_stop|].
  pose proof (cmd_route_reply 1 60
                (final_db (update_user_position 1 59.7161%R 30.39530%R 0 demo_db))) as H.
  rewrite cmd_route_one_stop in H. exact (proj2 (proj2 H)).
Defined.

(** X19. Choosing a target makes the route forget where the user is:
    right after [set_navigation_target], and right after [cmd_reset],
    [cmd_route] asks for a location, whatever position was stored; the
    routes of other users, and the route after [clear_navigation_target],
    are as before. *)
Theorem route_forgets_position (uid pid now now' : Z) (s : db) :
  cmd_route uid now' (final_db (set_navigation_target uid pid now s)) = Some AskLocation
  /\ cmd_route uid now' (final_db (cmd_reset uid s)) = Some AskLocation
  /\ (forall w, w <> uid ->
        cmd_route w now' (final_db (set_navigation_target uid pid now s))
        = cmd_route w now' s)
  /\ cmd_route uid now' (final_db (clear_navigation_target uid s)) = cmd_route uid now' s.
Proof.
  split; [|split; [|split]].
  - unfold cmd_route. simpl. rewrite lookup_insert_eq. reflexivity.
  - unfold cmd_route. simpl. rewrite lookup_delete_eq. reflexivity.
  - intros w Hw. unfold cmd_route. simpl.
    rewrite lookup_insert_ne by congruence. reflexivity.
  - unfold cmd_route. simpl. rewrite lookup_alter_eq.
    destruct (user_tracking s !! uid) as [r|]; reflexivity.
Qed.

(** X20. After a position update [cmd_route] ranks from the reported
    position: it returns the three nearest unvisited entries from there,
    or says that all is visited; a report at latitude exactly 0 counts as
    no position and makes it ask for a location. *)
Theorem route_from_last_report (uid : Z) (lat lon : R) (now now' : Z) (s : db) :
  positions_complete s ->
  cmd_route uid now' (final_db (update_user_position uid lat lon now s))
  = Some (if bool_decide (lat = 0%R) then AskLocation
          else match find_nearest_unvisited uid lat lon 3 now' s with
               | [] => AllVisited
               | pois => Route pois
               end).
Proof.
  intros Hwf.
  destruct (update_user_position_done uid lat lon now s (Hwf uid))
    as (s1 & -> & Ht & Hp & Hl).
  cbn [final_db]. unfold cmd_route. rewrite Ht, lookup_insert_eq. simpl.
  rewrite (find_nearest_unvisited_ext _ _ _ _ _ _ _ Hp Hl).
  case_bool_decide as H0; case_bool_decide as H1; try contradiction; simpl.
  - destruct (find_nearest_unvisited uid lat lon 3 now' s); reflexivity.
  - reflexivity.
Qed.

Lemma route_from_last_report_demo :
  positions_complete demo_db
  /\ cmd_route 1 60 (final_db (update_user_position 1 59.7161%R 30.3953%R 0 demo_db))
     = Some (if bool_decide (59.7161%R = 0%R) then AskLocation
             else match find_nearest_unvisited 1 59.7161%R 30.3953%R 3 60 demo_db with
                  | [] => AllVisited
                  | pois => Route pois
                  end).
Proof.
  assert (Hwf : positions_complete demo_db).
  { intros uid r. simpl. rewrite lookup_empty. discriminate. }
  split; [exact Hwf|].
  apply (route_from_last_report 1 59.7161%R 30.3953%R 0 60 demo_db Hwf).
Defined.

(** ** Bearing glyph *)

Lemma Int_part_IZR (z : Z) : Int_part (IZR z) = z.
Proof. symmetry. apply Int_part_spec. lra. Qed.

Lemma round_IZR (z : Z) : round (IZR z) = z.
Proof.
  unfold round. rewrite Int_part_IZR. rewrite decide_True by lra. reflexivity.
Qed.

Lemma float_mod_360 (k : Z) (a : R) :
  (0 <= a < 360)%R -> float_mod (a + 360 * IZR k) 360 = a.
Proof.
  intros Ha. unfold float_mod.
  assert (H : Int_part ((a + 360 * IZR k) / 360) = k).
  { symmetry. apply Int_part_spec. lra. }
  rewrite H. lra.
Qed.

(** X21. [get_direction] always returns one of its eight glyphs: the index
    into [directions] is never out of range, whatever the coordinates. *)
Theorem get_direction_total (lat1 lon1 lat2 lon2 : R) :
  exists glyph, get_direction lat1 lon1 lat2 lon2 = Some glyph /\ In glyph directions.
Proof.
  unfold get_direction. cbv zeta.
  set (i := round _ mod 8).
  assert (Hi : 0 <= i < 8) by (apply Z.mod_pos_bound; lia).
  destruct (nth_error directions (Z.to_nat i)) as [g|] eqn:E.
  - exists g. split; [reflexivity|]. eapply nth_error_In. exact E.
  - apply nth_error_None in E. simpl in E. lia.
Qed.

Lemma degrees_PI : degrees PI = 180%R.
Proof. unfold degrees. pose proof PI_RGT_0. field. lra. Qed.

Lemma direction_of_bearing (lat1 lon1 lat2 lon2 : R) (k j : Z) (y x : R) :
  y = (sin (radians (lon2 - lon1)) * cos (radians lat2))%R ->
  x = (cos (radians lat1) * sin (radians lat2)
       - sin (radians lat1) * cos (radians lat2) * cos (radians (lon2 - lon1)))%R ->
  0 <= k < 8 ->
  (degrees (atan2 y x) + 360 = 45 * IZR k + 360 * IZR j)%R ->
  get_direction lat1 lon1 lat2 lon2 = nth_error directions (Z.to_nat k).
Proof.
  intros -> -> Hk Hb. unfold get_direction. cbv zeta. rewrite Hb.
  assert (Hk' : (0 <= IZR k <= 7)%R).
  { split; [apply IZR_le; lia|]. apply IZR_le. lia. }
  rewrite float_mod_360 by lra.
  replace (45 * IZR k / 45)%R with (IZR k) by lra.
  rewrite round_IZR, Z.mod_small by lia. reflexivity.
Qed.

Lemma bearing_x_meridian (lat1 lat2 : R) :
  (cos (radians lat1) * sin (radians lat2)
   - sin (radians lat1) * cos (radians lat2) * cos (radians (0)))%R
  = sin (radians (lat2 - lat1)).
Proof.
  rewrite radians_0, cos_0.
  replace (radians (lat2 - lat1)) with (radians lat2 - radians lat1)%R
    by (unfold radians; lra).
  rewrite sin_minus. lra.
Qed.

(** X22. Along a meridian the glyph is the up arrow when the target is
    to the north (or at the same point) and the down arrow when it is to
    the south. *)
Theorem get_direction_meridian (lat1 lat2 lon : R) :
  (Rabs (lat2 - lat1) < 180)%R ->
  get_direction lat1 lon lat2 lon
  = Some (if decide (lat2 < lat1)%R then "⬇️"%string else "⬆️"%string).
Proof.
  intros Habs. apply Rabs_def2 in Habs. pose proof PI_RGT_0 as Hpi.
  assert (Hy : (sin (radians (lon - lon)) * cos (radians lat2))%R = 0%R).
  { replace (lon - lon)%R with 0%R by lra. rewrite radians_0, sin_0. lra. }
  pose proof (bearing_x_meridian lat1 lat2) as Hx.
  replace 0%R with (lon - lon)%R in Hx at 1 by lra.
  destruct (decide (lat2 < lat1)%R) as [Hlt|Hge].
  - rewrite (direction_of_bearing lat1 lon lat2 lon 4 1 _ _ eq_refl eq_refl); [reflexivity|lia|].
    rewrite Hy, Hx. unfold atan2.
    assert (Hs : (sin (radians (lat2 - lat1)) < 0)%R).
    { apply sin_lt_0_var; unfold radians; nra. }
    rewrite decide_False by lra. rewrite decide_True by lra.
    rewrite decide_True by lra.
    replace (0 / sin (radians (lat2 - lat1)))%R with 0%R by (field; lra).
    rewrite atan_0, Rplus_0_l, degrees_PI. lra.
  - rewrite (direction_of_bearing lat1 lon lat2 lon 0 1 _ _ eq_refl eq_refl); [reflexivity|lia|].
    rewrite Hy, Hx. unfold atan2.
    destruct (Req_dec lat2 lat1) as [->|Hne].
    + replace (lat1 - lat1)%R with 0%R by lra. rewrite radians_0, sin_0.
      rewrite decide_False by lra. rewrite decide_False by lra.
      rewrite decide_False by lra. rewrite decide_False by lra.
      unfold degrees. field. lra.
    + assert (Hs : (0 < sin (radians (lat2 - lat1)))%R).
      { apply sin_gt_0; unfold radians; nra. }
      rewrite decide_True by lra.
      replace (0 / sin (radians (lat2 - lat1)))%R with 0%R by (field; lra).
      rewrite atan_0. unfold degrees. field. lra.
Qed.

Lemma get_direction_meridian_demo :
  (Rabs (59.71618 - 59.7161) < 180)%R
  /\ get_direction 59.7161 30.3953 59.71618 30.3953
     = Some (if decide (59.71618 < 59.7161)%R then "⬇️"%string else "⬆️"%string).
Proof.
  assert (H : (Rabs (59.71618 - 59.7161) < 180)%R) by (apply Rabs_def1; lra).
  split; [exact H|]. apply (get_direction_meridian 59.7161 59.71618 30.3953 H).
Defined.

(** X23. Along the equator the glyph is the right arrow when the target is
    to the east and the left arrow when it is to the west, for every
    difference of longitude below 180 degrees. *)
Theorem get_direction_equator (lon1 lon2 : R) :
  (Rabs (lon2 - lon1) < 180)%R -> lon2 <> lon1 ->
  get_direction 0 lon1 0 lon2
  = Some (if decide (lon2 < lon1)%R then "⬅️"%string else "➡️"%string).
Proof.
  intros Habs Hne. apply Rabs_def2 in Habs. pose proof PI_RGT_0 as Hpi.
  assert (Hx : (cos (radians 0) * sin (radians 0)
                - sin (radians 0) * cos (radians 0) * cos (radians (lon2 - lon1)))%R = 0%R).
  { rewrite radians_0, sin_0. lra. }
  assert (Hy : (sin (radians (lon2 - lon1)) * cos (radians 0))%R
               = sin (radians (lon2 - lon1))).
  { rewrite radians_0, cos_0. lra. }
  destruct (decide (lon2 < lon1)%R) as [Hlt|Hge].
  - rewrite (direction_of_bearing 0 lon1 0 lon2 6 0 _ _ eq_refl eq_refl); [reflexivity|lia|].
    rewrite Hx, Hy. unfold atan2.
    assert (Hs : (sin (radians (lon2 - lon1)) < 0)%R).
    { apply sin_lt_0_var; unfold radians; nra. }
    rewrite decide_False by lra. rewrite decide_False by lra.
    rewrite decide_False by lra. rewrite decide_True by lra.
    unfold degrees. field. lra.
  - rewrite (direction_of_bearing 0 lon1 0 lon2 2 1 _ _ eq_refl eq_refl); [reflexivity|lia|].
    rewrite Hx, Hy. unfold atan2.
    assert (Hs : (0 < sin (radians (lon2 - lon1)))%R).
    { apply sin_gt_0; unfold radians; nra. }
    rewrite decide_False by lra. rewrite decide_False by lra.
    rewrite decide_True by lra.
    unfold degrees. field. lra.
Qed.

Lemma get_direction_equator_demo :
  (Rabs (30 - 31) < 180)%R /\ (30 <> 31)%R
  /\ get_direction 0 31 0 30
     = Some (if decide (30 < 31)%R then "⬅️"%string else "➡️"%string).
Proof.
  assert (H : (Rabs (30 - 31) < 180)%R) by (apply Rabs_def1; lra).
  assert (Hne : (30 <> 31)%R) by lra.
  split; [exact H|]. split; [exact Hne|].
  apply (get_direction_equator 31 30 H Hne).
Defined.

(** ** Interests and callbacks *)

Lemma str_in_In (x : string) (l : list string) : str_in x l = true <-> In x l.
Proof.
  unfold str_in. rewrite existsb_exists. split.
  - intros (y & Hy & He). apply String.eqb_eq in He. subst. assumption.
  - intros H. exists x. split; [assumption|apply String.eqb_refl].
Qed.

Lemma same_interest_spec (uid : Z) (i : string) (r : Z * string) :
  same_interest uid i r = true <-> r = (uid, i).
Proof.
  unfold same_interest. destruct r as [w j]. simpl.
  rewrite andb_true_iff, Z.eqb_eq, String.eqb_eq. split; [intros [-> ->]|intros [= -> ->]]; auto.
Qed.

Lemma In_get_user_interests (uid : Z) (i : string) (t : interests_table) :
  In i (get_user_interests uid t) <-> In (uid, i) t.
Proof.
  unfold get_user_interests. rewrite in_map_iff. split.
  - intros ([w j] & <- & Hin). apply filter_In in Hin. simpl in *.
    destruct Hin as [Hin Hw]. apply Z.eqb_eq in Hw. subst. assumption.
  - intros Hin. exists (uid, i). split; [reflexivity|].
    apply filter_In. split; [assumption|]. simpl. apply Z.eqb_refl.
Qed.

Lemma In_add_user_interest (uid : Z) (i : string) (t : interests_table) (r : Z * string) :
  In r (add_user_interest uid i t) <-> In r t \/ r = (uid, i).
Proof.
  unfold add_user_interest. destruct (existsb (same_interest uid i) t) eqn:E.
  - split; [auto|]. intros [H| ->]; [assumption|].
    apply existsb_exists in E. destruct E as (r & Hin & Hr).
    apply same_interest_spec in Hr. subst. assumption.
  - rewrite in_app_iff. simpl. intuition congruence.
Qed.

Lemma In_remove_user_interest (uid : Z) (i : string) (t : interests_table) (r : Z * string) :
  In r (remove_user_interest uid i t) <-> In r t /\ r <> (uid, i).
Proof.
  unfold remove_user_interest. rewrite filter_In, negb_true_iff.
  rewrite <- not_true_iff_false, same_interest_spec. tauto.
Qed.

(** X24. The interests of a user behave as a set under
    [add_user_interest] and [remove_user_interest]: an added interest is
    there, adding it again changes nothing, a removed one is gone,
    removing what was just added to a table that did not hold it gives
    the table back, no other user or interest is touched, and the rows
    stay distinct. *)
Theorem interests_add_remove (uid : Z) (i : string) (t : interests_table) :
  In i (get_user_interests uid (add_user_interest uid i t))
  /\ add_user_interest uid i (add_user_interest uid i t) = add_user_interest uid i t
  /\ ~ In i (get_user_interests uid (remove_user_interest uid i t))
  /\ (~ In i (get_user_interests uid t) ->
      remove_user_interest uid i (add_user_interest uid i t) = t)
  /\ (forall w j, (w, j) <> (uid, i) ->
        (In j (get_user_interests w (add_user_interest uid i t))
         <-> In j (get_user_interests w t))
        /\ (In j (get_user_interests w (remove_user_interest uid i t))
            <-> In j (get_user_interests w t)))
  /\ (List.NoDup t ->
      List.NoDup (add_user_interest uid i t) /\ List.NoDup (remove_user_interest uid i t)).
Proof.
  split; [|split; [|split; [|split; [|split]]]].
  - apply In_get_user_interests, In_add_user_interest. auto.
  - unfold add_user_interest at 1.
    assert (E : existsb (same_interest uid i) (add_user_interest uid i t) = true).
    { apply existsb_exists. exists (uid, i). split.
      - apply In_add_user_interest. auto.
      - apply same_interest_spec. reflexivity. }
    rewrite E. reflexivity.
  - rewrite In_get_user_interests, In_remove_user_interest. tauto.
  - intros Hnew. rewrite In_get_user_interests in Hnew.
    unfold add_user_interest.
    destruct (existsb (same_interest uid i) t) eqn:E.
    { apply existsb_exists in E. destruct E as (r & Hin & Hr).
      apply same_interest_spec in Hr. subst. contradiction. }
    unfold remove_user_interest. rewrite List.filter_app. simpl.
    assert (Hs : same_interest uid i (uid, i) = true) by (apply same_interest_spec; reflexivity).
    rewrite Hs. simpl. rewrite app_nil_r.
    apply forallb_filter_id. apply forallb_forall. intros r Hr.
    apply negb_true_iff. apply not_true_iff_false. intros Hsame.
    apply same_interest_spec in Hsame. subst. contradiction.
  - intros w j Hne.
    rewrite !In_get_user_interests, In_add_user_interest, In_remove_user_interest.
    tauto.
  - intros Hnd. split.
    + unfold add_user_interest. destruct (existsb (same_interest uid i) t) eqn:E;
        [assumption|].
      apply NoDup_app_remove_l with (l := []). simpl.
      apply List.NoDup_rev in Hnd.
      rewrite <- (rev_involutive (t ++ [(uid, i)])). apply List.NoDup_rev.
      rewrite rev_app_distr. simpl. constructor; [|assumption].
      rewrite <- in_rev. intros Hin.
      assert (Hex : existsb (same_interest uid i) t = true).
      { apply existsb_exists. exists (uid, i). split; [assumption|].
        apply same_interest_spec. reflexivity. }
      congruence.
    + apply List.NoDup_filter. assumption.
Qed.

Lemma split_plain (s : string) : plain s = true -> split "_" s = [s].
Proof.
  induction s as [|c s IH]; simpl; [reflexivity|].
  intros H. apply andb_true_iff in H. destruct H as [Hc Hs].
  apply negb_true_iff in Hc. rewrite Hc, (IH Hs). reflexivity.
Qed.

Lemma split_app_sep (a b : string) :
  plain a = true -> split "_" (a ++ String "_" b) = a :: split "_" b.
Proof.
  induction a as [|c a IH]; simpl; [reflexivity|].
  intros H. apply andb_true_iff in H. destruct H as [Hc Ha].
  apply negb_true_iff in Hc. rewrite Hc, (IH Ha). reflexivity.
Qed.

Lemma split_two (a b payload : string) :
  plain a = true -> plain b = true -> plain payload = true ->
  split "_" (a ++ String "_" (b ++ String "_" payload)) = [a; b; payload].
Proof.
  intros Ha Hb Hp. rewrite (split_app_sep a _ Ha), (split_app_sep b _ Hb).
  rewrite (split_plain payload Hp). reflexivity.
Qed.

Lemma prefix_app (a b : string) : String.prefix a (a ++ b) = true.
Proof.
  induction a as [|c a IH]; simpl.
  - destruct b; reflexivity.
  - destruct (ascii_dec c c) as [_|Hne]; [exact IH|destruct Hne; reflexivity].
Qed.

Lemma parse_interest_add (key : string) :
  plain key = true -> parse_callback ("interest_add_" ++ key) = InterestAdd key.
Proof.
  intros H. unfold parse_callback, part.
  replace (String.prefix "show_next_" ("interest_add_" ++ key)) with false by reflexivity.
  replace (String.prefix "navigate_" ("interest_add_" ++ key)) with false by reflexivity.
  rewrite (prefix_app "interest_add_" key).
  change ("interest_add_" ++ key)%string
    with ("interest" ++ String "_" ("add" ++ String "_" key))%string.
  rewrite split_two by (reflexivity || assumption). reflexivity.
Qed.

Lemma parse_interest_remove (key : string) :
  plain key = true -> parse_callback ("interest_remove_" ++ key) = InterestRemove key.
Proof.
  intros H. unfold parse_callback, part.
  replace (String.prefix "show_next_" ("interest_remove_" ++ key)) with false by reflexivity.
  replace (String.prefix "navigate_" ("interest_remove_" ++ key)) with false by reflexivity.
  replace (String.prefix "interest_add_" ("interest_remove_" ++ key)) with false
    by reflexivity.
  rewrite (prefix_app "interest_remove_" key).
  change ("interest_remove_" ++ key)%string
    with ("interest" ++ String "_" ("remove" ++ String "_" key))%string.
  rewrite split_two by (reflexivity || assumption). reflexivity.
Qed.

(** X25. The buttons and the dispatch of [on_callback] agree: for every
    payload without an underscore, the data built with each of the four
    prefixes is sent to the branch of that prefix with that payload. *)
Theorem callback_payload_round_trip (payload : string) :
  plain payload = true ->
  parse_callback ("show_next_" ++ payload) = ShowNext payload
  /\ parse_callback ("navigate_" ++ payload) = Navigate payload
  /\ parse_callback ("interest_add_" ++ payload) = InterestAdd payload
  /\ parse_callback ("interest_remove_" ++ payload) = InterestRemove payload.
Proof.
  intros H. split; [|split; [|split]].
  - unfold parse_callback, part.
    rewrite (prefix_app "show_next_" payload).
    change ("show_next_" ++ payload)%string
      with ("show" ++ String "_" ("next" ++ String "_" payload))%string.
    rewrite split_two by (reflexivity || assumption). reflexivity.
  - unfold parse_callback, part.
    replace (String.prefix "show_next_" ("navigate_" ++ payload)) with false by reflexivity.
    rewrite (prefix_app "navigate_" payload).
    change ("navigate_" ++ payload)%string with ("navigate" ++ String "_" payload)%string.
    rewrite split_app_sep by reflexivity. rewrite (split_plain payload H). reflexivity.
  - apply parse_interest_add. assumption.
  - apply parse_interest_remove. assumption.
Qed.

Lemma INTERESTS_plain : forallb plain (map fst INTERESTS) = true.
Proof. reflexivity. Qed.

Lemma callback_payload_round_trip_demo :
  plain "7" = true
  /\ parse_callback "navigate_7" = Navigate "7"
  /\ parse_callback "show_next_7" = ShowNext "7".
Proof.
  assert (H : plain "7" = true) by reflexivity.
  split; [exact H|].
  destruct (callback_payload_round_trip "7" H) as (Hs & Hn & _).
  split; [exact Hn|exact Hs].
Defined.

(** X26. Pressing the button that [cmd_interests] shows for an interest of
    [INTERESTS] toggles it: afterwards the user has the interest exactly
    when the user did not have it before, and nothing else changes. *)
Theorem interest_button_toggles (uid : Z) (key : string) (t : interests_table) :
  In key (map fst INTERESTS) ->
  (In key (get_user_interests uid
             (on_interest_callback uid (interest_button (get_user_interests uid t) key) t))
   <-> ~ In key (get_user_interests uid t))
  /\ forall w j, (w, j) <> (uid, key) ->
       (In j (get_user_interests w
                (on_interest_callback uid (interest_button (get_user_interests uid t) key) t))
        <-> In j (get_user_interests w t)).
Proof.
  intros Hin.
  assert (Hkey : plain key = true).
  { pose proof INTERESTS_plain as Hall. rewrite forallb_forall in Hall. auto. }
  clear Hin. unfold interest_button, on_interest_callback.
  destruct (str_in key (get_user_interests uid t)) eqn:E.
  - apply str_in_In in E. rewrite (parse_interest_remove key Hkey). split.
    + rewrite In_get_user_interests, In_remove_user_interest. tauto.
    + intros w j Hne. rewrite !In_get_user_interests, In_remove_user_interest. tauto.
  - assert (Hnot : ~ In key (get_user_interests uid t)).
    { intros Hin. apply str_in_In in Hin. congruence. }
    rewrite (parse_interest_add key Hkey). split.
    + rewrite In_get_user_interests, In_add_user_interest. tauto.
    + intros w j Hne. rewrite !In_get_user_interests, In_add_user_interest.
      intuition congruence.
Qed.

Lemma interest_button_toggles_demo :
  In "history"%string (map fst INTERESTS)
  /\ (In "history"%string
         (get_user_interests 1
            (on_interest_callback 1 (interest_button (get_user_interests 1 []) "history") []))
      <-> ~ In "history"%string (get_user_interests 1 [])).
Proof.
  assert (H : In "history"%string (map fst INTERESTS)) by (left; reflexivity).
  split; [exact H|].
  exact (proj1 (interest_button_toggles 1 "history" [] H)).
Defined.

Lemma str_in_ext (x : string) (l l' : list string) :
  (forall i, In i l <-> In i l') -> str_in x l = str_in x l'.
Proof.
  intros H. destruct (str_in x l) eqn:E, (str_in x l') eqn:E'; try reflexivity.
  - apply str_in_In, H, str_in_In in E. congruence.
  - apply str_in_In, H, str_in_In in E'. congruence.
Qed.

(** X27. [get_personalized_description] only puts glyphs in front of the
    summary, and none when the interests hold none of the three tagged
    ones; the text depends on which interests are chosen, not on their
    order or repetition in the list. *)
Theorem description_keeps_summary (p : poi_row) (interests : list string) :
  (exists tags,
     get_personalized_description p interests = (tags ++ summary_ru p)%string
     /\ (tags = EmptyString <->
         ~ In "history"%string interests /\ ~ In "architecture"%string interests
         /\ ~ In "legends"%string interests))
  /\ forall interests',
       (forall i, In i interests <-> In i interests') ->
       get_personalized_description p interests'
       = get_personalized_description p interests.
Proof.
  split.
  - unfold get_personalized_description. cbv zeta.
    destruct interests as [|a l]; [exists EmptyString; simpl; tauto|].
    set (li := a :: l).
    pose proof (str_in_In "history" li) as Hh.
    pose proof (str_in_In "architecture" li) as Ha.
    pose proof (str_in_In "legends" li) as Hl.
    destruct (str_in "history" li), (str_in "architecture" li), (str_in "legends" li);
      cbn [app];
      try (match goal with
           | |- exists _, (?t ++ " " ++ _)%string = _ /\ _ => exists (t ++ " ")%string
           end;
           split; [reflexivity|]; split; [discriminate|]; tauto).
    exists EmptyString. split; [reflexivity|]. split; [intros _|reflexivity].
    repeat split; intros Hin;
      [apply Hh in Hin|apply Ha in Hin|apply Hl in Hin]; discriminate.
  - intros l' Hsame. unfold get_personalized_description. cbv zeta.
    rewrite !(str_in_ext _ _ _ Hsame).
    destruct interests as [|a l], l' as [|a' l'']; try reflexivity.
    destruct (proj2 (Hsame a') (or_introl eq_refl)).
Qed.

(** ** The ledger and the catalogue *)

(** X28. The handlers keep the ledger within the catalogue: when every
    ledger row names a catalogue entry, it is still so after any sequence
    of operations that does not call [mark_visit] directly, and then no
    user has visited more distinct places than the catalogue holds. *)
Theorem handlers_keep_ledger_in_catalogue (ops : list (op * Z)) (s : db) :
  ledger_in_catalogue s ->
  existsb (fun x => direct_visit (fst x)) ops = false ->
  ledger_in_catalogue (fst (run ops s))
  /\ forall uid, visited_places uid (fst (run ops s)) <= poi_count s.
Proof.
  intros Hinv _.
  destruct (run_frame ops s) as (Hp & Hl & _).
  assert (Hrun : ledger_in_catalogue (fst (run ops s))).
  { intros v Hv. rewrite Hp. apply Hinv, Hl, Hv. }
  split; [assumption|]. intros uid.
  unfold visited_places, poi_count.
  set (s' := fst (run ops s)) in *.
  assert (Hsub : (list_to_set (user_visits uid (visit_log s')) : gset Z)
                 ⊆ list_to_set (map poi_id (poi s))).
  { intros x Hx. apply elem_of_list_to_set, list_elem_of_In in Hx.
    apply elem_of_list_to_set, list_elem_of_In.
    unfold user_visits in Hx. apply in_map_iff in Hx.
    destruct Hx as (v & <- & Hv). apply filter_In in Hv. destruct Hv as [Hv _].
    destruct (Hrun v Hv) as (p & Hin & <-). rewrite Hp in Hin.
    apply in_map. assumption. }
  apply subseteq_size in Hsub.
  pose proof (size_list_to_set_le (map poi_id (poi s))) as Hle.
  rewrite length_map in Hle. lia.
Qed.

Lemma handlers_keep_ledger_in_catalogue_demo :
  ledger_in_catalogue visited_db
  /\ existsb (fun x => direct_visit (fst x))
       [(Location (fresh_report 1 59.7161%R 30.3953%R), 90000); (ResetUser 2, 90060)] = false
  /\ ledger_in_catalogue
       (fst (run [(Location (fresh_report 1 59.7161%R 30.3953%R), 90000); (ResetUser 2, 90060)]
                 visited_db))
  /\ visited_places 1
       (fst (run [(Location (fresh_report 1 59.7161%R 30.3953%R), 90000); (ResetUser 2, 90060)]
                 visited_db)) <= poi_count visited_db.
Proof.
  assert (Hinv : ledger_in_catalogue visited_db).
  { intros v [<-|[]]. exists kavalerskie. split; [left|]; reflexivity. }
  assert (Hops : existsb (fun x => direct_visit (fst x))
                   [(Location (fresh_report 1 59.7161%R 30.3953%R), 90000); (ResetUser 2, 90060)]
                 = false) by reflexivity.
  split; [exact Hinv|]. split; [exact Hops|].
  split.
  - exact (proj1 (handlers_keep_ledger_in_catalogue _ visited_db Hinv Hops)).
  - exact (proj2 (handlers_keep_ledger_in_catalogue _ visited_db Hinv Hops) 1).
Defined.

(** ** Callbacks *)

Lemma on_callback_show_next_run (uid pid now : Z) (s : db) :
  on_callback_show_next uid pid now s =
  if bool_decide (int64 pid) then
    match get_poi_by_id pid s with
    | None => Done tt s []
    | Some _ =>
        match user_tracking s !! uid with
        | Some r =>
            if float_truthy (last_lat r) then
              match last_lat r, last_lon r with
              | Some _, Some _ => Raised OperationalError s []
              | _, _ => Raised TypeError s []
              end
            else Raised OperationalError s []
        | None => Raised OperationalError s []
        end
    end
  else Raised OverflowError s [].
Proof.
  unfold on_callback_show_next.
  destruct (bool_decide (int64 pid)); [|reflexivity].
  unfold mbind, M_bind, gets.
  destruct (get_poi_by_id pid s) as [p|]; [|reflexivity].
  destruct (user_tracking s !! uid) as [r|].
  2: { cbn [mret M_ret]. rewrite mark_visit_locked. reflexivity. }
  destruct (float_truthy (last_lat r)).
  2: { cbn [mret M_ret]. rewrite mark_visit_locked. reflexivity. }
  destruct (last_lat r); [|reflexivity].
  destruct (last_lon r); [|reflexivity].
  cbn [mret M_ret]. rewrite mark_visit_locked. reflexivity.
Qed.

(** X29. The button for the next place records no visit: whatever the
    id, the stored position and the earlier visits, [on_callback_show_next]
    leaves the whole store as it was and sends no event.  With complete
    navigation rows it ends in [OperationalError] for an id of the
    catalogue, returns for an unknown id, and ends in [OverflowError] for
    an id outside 64 bits. *)
Theorem show_next_records_nothing (uid pid now : Z) (s : db) :
  final_db (on_callback_show_next uid pid now s) = s
  /\ output (on_callback_show_next uid pid now s) = []
  /\ (positions_complete s ->
      on_callback_show_next uid pid now s =
      if bool_decide (int64 pid) then
        match get_poi_by_id pid s with
        | Some _ => Raised OperationalError s []
        | None => Done tt s []
        end
      else Raised OverflowError s []).
Proof.
  rewrite on_callback_show_next_run.
  destruct (bool_decide (int64 pid)); [|repeat split].
  destruct (get_poi_by_id pid s) as [p|]; [|repeat split].
  destruct (user_tracking s !! uid) as [r|] eqn:Hr; [|repeat split].
  destruct (float_truthy (last_lat r)) eqn:Htruthy; [|repeat split].
  destruct (last_lat r) as [la|] eqn:Hla; [|discriminate Htruthy].
  destruct (last_lon r) as [lo|] eqn:Hlo; [repeat split|].
  split; [reflexivity|]. split; [reflexivity|]. intros Hwf. exfalso.
  destruct (Hwf uid r Hr) as [lo Hlo']; [rewrite Hla; eauto|]. congruence.
Qed.

Lemma show_next_records_nothing_demo :
  positions_complete visited_db
  /\ on_callback_show_next 1 1 2000 visited_db = Raised OperationalError visited_db [].
Proof.
  assert (Hwf : positions_complete visited_db).
  { intros uid r. simpl. rewrite lookup_empty. discriminate. }
  split; [exact Hwf|].
  exact (proj2 (proj2 (show_next_records_nothing 1 1 2000 visited_db)) Hwf).
Defined.

(** X30. The navigation button sets the target before it looks the
    entry up: for an id within 64 bits that the catalogue does not hold
    the branch raises [TypeError], and the user's navigation row is left
    with that target; for an id outside 64 bits the binding raises
    [OverflowError] and nothing is written. *)
Theorem navigate_callback_sets_before_checking (uid pid now : Z) (s : db) :
  get_poi_by_id pid s = None ->
  (int64 pid ->
     on_callback_navigate uid pid now s
     = Raised TypeError (final_db (set_navigation_target uid pid now s)) []
     /\ user_tracking (final_db (on_callback_navigate uid pid now s)) !! uid
        = Some (target_row pid now))
  /\ (~ int64 pid -> on_callback_navigate uid pid now s = Raised OverflowError s []).
Proof.
  intros Hnone. unfold on_callback_navigate. split; intros H64.
  - rewrite bool_decide_true by assumption.
    assert (Hrun : (set_navigation_target uid pid now;;
                    found ← gets (get_poi_by_id pid);
                    match found with
                    | None => raise TypeError
                    | Some _ => mret tt
                    end) s
                   = Raised TypeError (final_db (set_navigation_target uid pid now s)) []).
    { unfold get_poi_by_id in *. unfold_m. simpl. rewrite Hnone. reflexivity. }
    split; [exact Hrun|]. rewrite Hrun. simpl. apply lookup_insert_eq.
  - rewrite bool_decide_false by assumption. reflexivity.
Qed.

Lemma navigate_callback_sets_before_checking_demo :
  get_poi_by_id 7 demo_db = None
  /\ int64 7
  /\ user_tracking (final_db (on_callback_navigate 1 7 0 demo_db)) !! 1
     = Some (target_row 7 0)
  /\ ~ int64 (2 ^ 63)
  /\ on_callback_navigate 1 (2 ^ 63) 0 demo_db = Raised OverflowError demo_db [].
Proof.
  assert (H : get_poi_by_id 7 demo_db = None) by reflexivity.
  assert (H' : get_poi_by_id (2 ^ 63) demo_db = None) by reflexivity.
  assert (H64 : int64 7) by (unfold int64; lia).
  assert (Hbig : ~ int64 (2 ^ 63)) by (unfold int64; lia).
  split; [exact H|]. split; [exact H64|].
  split; [exact (proj2 (proj1 (navigate_callback_sets_before_checking 1 7 0 demo_db H) H64))|].
  split; [exact Hbig|].
  exact (proj2 (navigate_callback_sets_before_checking 1 (2 ^ 63) 0 demo_db H') Hbig).
Defined.
